(** * staq: the swap-inserting hardware mapper and the pystaq wrapper

    A shallow embedding of

    - [mapping/mapping/swap.hpp]: [SwapMapper] (constructor, [run], the two
      [replace] overrides, [generate_cnot], [generate_hadamard],
      [generate_swapped_cnot]) and [map_onto_device];
    - [pystaq/staq_wrapper.cpp]: [Program::map] and the wrapper's [Device]
      class ([add_edge]).

    C++ [int] values are embedded as [Z]: the mapper only compares and copies
    them.  A [double] is a binary64 [float], compared with the primitive
    comparisons.  [std::map<int,int>] is a [gmap Z Z]; [std::cerr] is the
    list of the values inserted into the stream, in order.  Source positions
    ([parser::Position]) are metadata copied from the rewritten gate and are
    left out.

    The unitary of a program is defined over the reals of the standard
    library, on states as functions from basis states to amplitudes. *)

From Stdlib Require Import ZArith List Bool String PrimFloat.
From Stdlib Require Import Reals Ring Lra FunctionalExtensionality.
From stdpp Require Import gmap strings list fin_maps.

Local Open Scope Z_scope.

(** ** The stream [std::cerr] *)

Inductive Out :=
| OStr (s : string)
| OInt (z : Z)
| ODouble (f : float).

(** The string ["\n"]. *)
Definition nl : string := String (Ascii.ascii_of_nat 10) EmptyString.

(** ** The part of the AST the mapper touches *)

Module ast.

Inductive BinaryOp := Plus | Minus | Times | Divide | Pow.
Inductive UnaryOp := Neg | Sin | Cos | Tan | Ln | Sqrt | Exp.

(** Angle expressions of inlined programs (no parameters; real literals are
    left out). *)
Inductive Expr :=
| PiExpr
| IntExpr (value : Z)
| BExpr (lexp : Expr) (op : BinaryOp) (rexp : Expr)
| UExpr (op : UnaryOp) (subexp : Expr).

(** [VarAccess]: a register name and an offset.  The mapper dereferences
    [va.offset()] without a test, so the embedding covers accesses that
    carry an offset (desugared programs). *)
Record VarAccess := mkVarAccess { var : string; offset : Z }.

Inductive Gate :=
| UGate (theta phi lambda : Expr) (arg : VarAccess)
| CNOTGate (ctrl tgt : VarAccess)
| BarrierGate (args : list VarAccess)
| DeclaredGate (name : string) (c_args : list Expr) (q_args : list VarAccess).

Inductive Stmt :=
| GateStmt (g : Gate)
| MeasureStmt (q_arg c_arg : VarAccess)
| ResetStmt (arg : VarAccess)
| GateDecl (id : string) (body : list Gate)
| OracleDecl (id : string) (fname : string)
| RegisterDecl (id : string) (quantum : bool) (size : Z).

Definition Program := list Stmt.

End ast.

Import ast.

(** ** The device, as the mapper sees it

    [mapping/device.hpp] is not among the sources; the mapper reads the
    member [qubits_] and calls [coupled] and [shortest_path].  The record
    below is that interface. *)

Record Device := mkDevice {
  qubits_ : Z;
  coupled : Z → Z → bool;
  shortest_path : Z → Z → list Z
}.

(** ** SwapMapper *)

Module SwapMapper.

(** [struct config { std::string register_name = "q"; }] *)
Definition register_name : string := "q".

(** The mutable members of the mapper, and the error stream. *)
Record state := mkState {
  permutation_ : gmap Z Z;
  cerr : list Out
}.

(** A small state monad for the visitor. *)
Definition M (A : Type) : Type := state → A * state.
Definition ret {A} (a : A) : M A := λ s, (a, s).
Definition bind {A B} (m : M A) (k : A → M B) : M B :=
  λ s, let '(a, s') := m s in k a s'.
Definition get_perm : M (gmap Z Z) := λ s, (permutation_ s, s).
Definition put_perm (p : gmap Z Z) : M unit :=
  λ s, (tt, mkState p (cerr s)).
Definition print (o : list Out) : M unit :=
  λ s, (tt, mkState (permutation_ s) (cerr s ++ o)).

Declare Scope mapper_scope.
Delimit Scope mapper_scope with mapper.
Notation "x <~ m ;; k" := (bind m (λ x, k))
  (at level 100, m at next level, right associativity) : mapper_scope.
Notation "m ;;; k" := (bind m (λ _, k))
  (at level 100, right associativity) : mapper_scope.
Local Open Scope mapper_scope.

(** Constructor: [for (i = 0; i < device.qubits_; i++) permutation_[i] = i]. *)
Definition init_permutation (n : Z) : gmap Z Z :=
  foldl (λ p i, <[i := i]> p) ∅ (seqZ 0 n).

Definition init (device : Device) : state :=
  mkState (init_permutation (qubits_ device)) [].

(** [permutation_[k]]: [std::map::operator[]] inserts a value-initialised
    entry (0) when the key is absent. *)
Definition perm_index (k : Z) : M Z :=
  p <~ get_perm ;;
  match p !! k with
  | Some q => ret q
  | None => put_perm (<[k := 0]> p) ;;; ret 0
  end.

(** [replace(ast::VarAccess&)] *)
Definition replace_VarAccess (va : VarAccess) : M (option VarAccess) :=
  if String.eqb (var va) register_name then
    q <~ perm_index (offset va) ;;
    ret (Some (mkVarAccess (var va) q))
  else ret None.

Definition generate_cnot (i j : Z) : Gate :=
  CNOTGate (mkVarAccess register_name i) (mkVarAccess register_name j).

Definition generate_hadamard (i : Z) : Gate :=
  let theta := BExpr PiExpr Divide (IntExpr 2) in
  let phi := IntExpr 0 in
  let lambda := PiExpr in
  UGate theta phi lambda (mkVarAccess register_name i).

Definition generate_swapped_cnot (i j : Z) : list Gate :=
  [generate_hadamard i; generate_hadamard j; generate_cnot j i;
   generate_hadamard i; generate_hadamard j].

(** The loop "Adjust permutation": every entry equal to [i] becomes [j],
    every entry equal to [j] becomes [i]. *)
Definition adjust_permutation (i j : Z) (p : gmap Z Z) : gmap Z Z :=
  (λ q, if q =? i then j else if q =? j then i else q) <$> p.

Section WithDevice.
Variable device_ : Device.

(** The gates of the branch [j == tgt]. *)
Definition final_cnot (i j : Z) : list Gate :=
  if coupled device_ i j then [generate_cnot i j]
  else generate_swapped_cnot i j.

(** The gates of the branch [j != i] ("Swap i and j"). *)
Definition swap_gates (i j : Z) : list Gate :=
  let '(swap_i, swap_j) :=
    if negb (coupled device_ i j) then (j, i) else (i, j) in
  [generate_cnot swap_i swap_j]
  ++ (if coupled device_ swap_j swap_i
      then [generate_cnot swap_j swap_i]
      else generate_swapped_cnot swap_j swap_i)
  ++ [generate_cnot swap_i swap_j].

(** The loop [for (auto j : cnot_chain)], with [ret] the gates emitted
    by the remaining iterations. *)
Fixpoint swap_chain (tgt i : Z) (cnot_chain : list Z) : M (list Gate) :=
  match cnot_chain with
  | [] => ret []
  | j :: rest =>
      if j =? tgt then ret (final_cnot i j)
      else if negb (j =? i) then
        p <~ get_perm ;;
        put_perm (adjust_permutation i j p) ;;;
        more <~ swap_chain tgt j rest ;;
        ret (swap_gates i j ++ more)
      else swap_chain tgt j rest
  end.

(** [replace(ast::CNOTGate&)], called on the gate's operands. *)
Definition replace_CNOTGate (gate_ctrl gate_tgt : VarAccess)
    : M (option (list Gate)) :=
  let ctrl := offset gate_ctrl in
  let tgt := offset gate_tgt in
  let cnot_chain := shortest_path device_ ctrl tgt in
  match cnot_chain with
  | [] =>
      print [OStr "Error: could not find a connection between qubits ";
             OInt ctrl; OStr " and "; OInt tgt; OStr nl] ;;;
      ret None
  | _ :: _ =>
      gates <~ swap_chain tgt ctrl cnot_chain ;;
      ret (Some gates)
  end.

(** Modelled from the spec: the traversal of [ast::Replacer]
    ([qasmtools/ast/replacer.hpp], not among the sources), after the
    traversal contract of the swap mapper: nodes are visited post-order,
    children are rewritten before their parent and statement order is
    kept; a [replace] that returns [std::nullopt] leaves the node as it
    is (with its rewritten children), a [replace] that returns a list
    puts the list in the node's place.  [visit(GateDecl&)] and
    [visit(OracleDecl&)] are overridden with empty bodies in
    [SwapMapper], so declarations are not entered.  Classical
    conditionals are not modelled (the header carries a TODO about
    them). *)
Definition visit_VarAccess (va : VarAccess) : M VarAccess :=
  r <~ replace_VarAccess va ;;
  ret (default va r).

(** Modelled from the spec: the traversal of [ast::Replacer] over a list
    of arguments, in order. *)
Fixpoint visit_VarAccesses (vas : list VarAccess) : M (list VarAccess) :=
  match vas with
  | [] => ret []
  | va :: rest =>
      va' <~ visit_VarAccess va ;;
      rest' <~ visit_VarAccesses rest ;;
      ret (va' :: rest')
  end.

(** Modelled from the spec: the traversal of [ast::Replacer] over a gate;
    the operands are rewritten first, then [replace] is called on the gate
    with its rewritten operands. *)
Definition visit_Gate (g : Gate) : M (list Gate) :=
  match g with
  | UGate theta phi lambda arg =>
      arg' <~ visit_VarAccess arg ;;
      ret [UGate theta phi lambda arg']
  | CNOTGate ctrl tgt =>
      ctrl' <~ visit_VarAccess ctrl ;;
      tgt' <~ visit_VarAccess tgt ;;
      r <~ replace_CNOTGate ctrl' tgt' ;;
      ret (default [CNOTGate ctrl' tgt'] r)
  | BarrierGate args =>
      args' <~ visit_VarAccesses args ;;
      ret [BarrierGate args']
  | DeclaredGate name c_args q_args =>
      q_args' <~ visit_VarAccesses q_args ;;
      ret [DeclaredGate name c_args q_args']
  end.

(** Modelled from the spec: the traversal of [ast::Replacer] over a
    statement; declarations are left as they are. *)
Definition visit_Stmt (s : Stmt) : M (list Stmt) :=
  match s with
  | GateStmt g =>
      gs <~ visit_Gate g ;;
      ret (GateStmt <$> gs)
  | MeasureStmt q_arg c_arg =>
      q_arg' <~ visit_VarAccess q_arg ;;
      c_arg' <~ visit_VarAccess c_arg ;;
      ret [MeasureStmt q_arg' c_arg']
  | ResetStmt arg =>
      arg' <~ visit_VarAccess arg ;;
      ret [ResetStmt arg']
  | GateDecl _ _ | OracleDecl _ _ | RegisterDecl _ _ _ => ret [s]
  end.

(** Modelled from the spec: the traversal of [ast::Replacer] over the
    program, statement by statement, in program order. *)
Fixpoint visit_Program (prog : Program) : M Program :=
  match prog with
  | [] => ret []
  | s :: rest =>
      s' <~ visit_Stmt s ;;
      rest' <~ visit_Program rest ;;
      ret (s' ++ rest')
  end.

(** [run]: the program is rewritten in place and the permutation is
    returned; the result pairs the returned map with the program as it
    is after the call. *)
Definition run (prog : Program) : M (gmap Z Z * Program) :=
  prog' <~ visit_Program prog ;;
  p <~ get_perm ;;
  ret (p, prog').

End WithDevice.

End SwapMapper.

(** [map_onto_device]: a fresh mapper is run on the program.  The result is
    the returned permutation, the rewritten program and what was written to
    [std::cerr]. *)
Definition map_onto_device (device : Device) (prog : Program)
    : gmap Z Z * Program * list Out :=
  let '(r, s) := SwapMapper.run device prog (SwapMapper.init device) in
  (r.1, r.2, SwapMapper.cerr s).

(** ** A device built from an adjacency matrix *)

Module device.

(** Modelled from the spec: [mapping/device.hpp] is not among the sources.
    [coupled(i, j)] returns [adj[i][j]]; [shortest_path(src, dst)] is
    found by breadth-first search on the symmetric closure of [adj],
    neighbours taken in ascending index order and the first discovered
    path kept, rebuilt from the predecessor table; the path leaves out the
    source, ends with the destination, and is empty when [src = dst] or
    when no path exists. *)
Definition adj_at (adj : list (list bool)) (i j : Z) : bool :=
  if (0 <=? i) && (0 <=? j) then
    match adj !! Z.to_nat i with
    | Some row => default false (row !! Z.to_nat j)
    | None => false
    end
  else false.

(** Modelled from the spec: the edges of [mapping/device.hpp]'s search
    are the symmetric closure of [adj]. *)
Definition linked (adj : list (list bool)) (i j : Z) : bool :=
  adj_at adj i j || adj_at adj j i.

(** Modelled from the spec: one step of the breadth-first search of
    [mapping/device.hpp]; the neighbours of [u] not seen before get [u] as
    predecessor and join the queue, in ascending index order. *)
Definition discover (adj : list (list bool)) (n u : Z)
    (st : gmap Z Z * list Z) : gmap Z Z * list Z :=
  foldl (λ '(pred, queue) v,
           if linked adj u v && negb (bool_decide (is_Some (pred !! v)))
           then (<[v := u]> pred, queue ++ [v])
           else (pred, queue))
        st (seqZ 0 n).

(** Modelled from the spec: the breadth-first search of
    [mapping/device.hpp]; every qubit enters the queue at most once, so
    [n] steps are enough. *)
Fixpoint bfs (adj : list (list bool)) (n : Z) (fuel : nat)
    (pred : gmap Z Z) (queue : list Z) : gmap Z Z :=
  match fuel, queue with
  | S fuel', u :: queue' =>
      let '(pred', queue'') := discover adj n u (pred, queue') in
      bfs adj n fuel' pred' queue''
  | _, _ => pred
  end.

(** Modelled from the spec: the path reconstruction of
    [mapping/device.hpp] from the predecessor table. *)
Fixpoint walk_back (fuel : nat) (pred : gmap Z Z) (src v : Z)
    (acc : list Z) : list Z :=
  match fuel with
  | O => []
  | S fuel' =>
      if v =? src then acc
      else match pred !! v with
           | Some u => walk_back fuel' pred src u (v :: acc)
           | None => []
           end
  end.

(** Modelled from the spec: [Device::shortest_path] of
    [mapping/device.hpp]. *)
Definition bfs_path (adj : list (list bool)) (n src dst : Z) : list Z :=
  if src =? dst then []
  else walk_back (Z.to_nat n)
         (bfs adj n (Z.to_nat n) {[src := src]} [src]) src dst [].

(** Modelled from the spec: the device of [mapping/device.hpp] with [n]
    qubits and the couplings [adj]. *)
Definition make (n : Z) (adj : list (list bool)) : Device :=
  mkDevice n (adj_at adj) (bfs_path adj n).

End device.

(** ** pystaq: [Program::map] and the wrapper's [Device] *)

Module pystaq.

(** The configuration passed to [transformations::inline_ast]; in
    [Program::inline_prog] the first field receives [!clear_decls]. *)
Record inline_config := mk_inline_config {
  keep_declarations : bool;
  overrides : list string;
  ancilla_name : string
}.

(** The functions [Program::map] calls that are not among the sources,
    taken as total functions.  [layout] stands for [mapping::layout]. *)
Record collaborators := mk_collaborators {
  layout : Type;
  inline_ast : Program → inline_config → Program;
  parse_json : string → Device;
  fully_connected : Z → Device;
  estimate_qubits : Program → Z;
  compute_basic_layout : Device → Program → layout;
  compute_eager_layout : Device → Program → layout;
  compute_bestfit_layout : Device → Program → layout;
  apply_layout : layout → Device → Program → Program;
  steiner_mapping : Device → Program → Program;
  expr_simplify : Program → bool → Program
}.

Section Program.
Variable tc : collaborators.

(** [Program::inline_prog]; [default_overrides] stands for
    [transformations::default_overrides], a [std::set] is a list. *)
Definition inline_prog (default_overrides : list string) (clear_decls : bool)
    (inline_stdlib : bool) (ancilla_name : string) (prog_ : Program)
    : Program :=
  let overrides := if inline_stdlib then [] else default_overrides in
  inline_ast tc prog_ (mk_inline_config (negb clear_decls) overrides ancilla_name).

(** The device [Program::map] maps onto. *)
Definition physical_device (device_json : string) (prog_ : Program) : Device :=
  if negb (String.eqb device_json EmptyString)
  then parse_json tc device_json
  else fully_connected tc (estimate_qubits tc prog_).

(** The initial layout, [None] in the branch that reports an invalid
    layout algorithm. *)
Definition initial_layout (layout_name : string) (dev : Device)
    (prog_ : Program) : option (layout tc) :=
  if String.eqb layout_name "linear"
  then Some (compute_basic_layout tc dev prog_)
  else if String.eqb layout_name "eager"
  then Some (compute_eager_layout tc dev prog_)
  else if String.eqb layout_name "bestfit"
  then Some (compute_bestfit_layout tc dev prog_)
  else None.

(** [Program::map]: the member [prog_] and [std::cerr] before the call
    are mapped to their values after it. *)
Definition map (layout_name mapper : string) (evaluate_all : bool)
    (device_json : string) (st : Program * list Out)
    : Program * list Out :=
  let '(prog_, cerr) := st in
  (* Inline fully first *)
  let prog_ := inline_ast tc prog_ (mk_inline_config false [] "anc") in
  (* Physical device *)
  let dev := physical_device device_json prog_ in
  (* Initial layout *)
  match initial_layout layout_name dev prog_ with
  | None => (prog_, cerr ++ [OStr ("Error: invalid layout algorithm" ++ nl)])
  | Some physical_layout =>
      let prog_ := apply_layout tc physical_layout dev prog_ in
      (* Mapping *)
      let mapped :=
        if String.eqb mapper "swap" then
          let '(_, prog', err) := map_onto_device dev prog_ in
          Some (prog', cerr ++ err)
        else if String.eqb mapper "steiner" then
          Some (steiner_mapping tc dev prog_, cerr)
        else None in
      match mapped with
      | None =>
          (prog_, cerr ++ [OStr ("Error: invalid mapping algorithm" ++ nl)])
      | Some (prog_, cerr) =>
          (* Evaluating symbolic expressions *)
          if evaluate_all then (expr_simplify tc prog_ true, cerr)
          else (prog_, cerr)
      end
  end.

End Program.

(** The wrapper's [Device]. *)
Record Device := mkDevice {
  n_ : Z;
  sq_fi_ : list float;
  adj_ : list (list bool);
  tq_fi_ : list (list float)
}.

(** [m[i][j] = x] on a vector of vectors. *)
Definition set2 {A} (m : list (list A)) (i j : Z) (x : A) : list (list A) :=
  match m !! Z.to_nat i with
  | Some row => <[Z.to_nat i := <[Z.to_nat j := x]> row]> m
  | None => m
  end.

Section Device.
(** [staq::mapping::FIDELITY_1], defined in [mapping/device.hpp]. *)
Variable FIDELITY_1 : float.

(** The constructor throws [std::logic_error] when [n <= 0]. *)
Definition new (n : Z) : option Device :=
  if n <=? 0 then None
  else
    let k := Z.to_nat n in
    Some (mkDevice n (replicate k FIDELITY_1)
            (replicate k (replicate k false))
            (replicate k (replicate k FIDELITY_1))).

(** [add_edge]: the device and [std::cerr] before the call are mapped
    to their values after it. *)
Definition add_edge (control target : Z) (directed : bool)
    (fidelity : float) (st : Device * list Out) : Device * list Out :=
  let '(d, cerr) := st in
  if (control <? 0) || (control >=? n_ d)
     || (target <? 0) || (target >=? n_ d) then
    (d, cerr ++ [OStr "Qubit(s) out of range: "; OInt control; OStr ",";
                 OInt target; OStr nl])
  else
    let adj := set2 (adj_ d) control target true in
    let adj := if negb directed then set2 adj target control true else adj in
    if negb (PrimFloat.eqb fidelity FIDELITY_1) then
      if PrimFloat.ltb fidelity 0 || PrimFloat.ltb 1 fidelity then
        (mkDevice (n_ d) (sq_fi_ d) adj (tq_fi_ d),
         cerr ++ [OStr "Fidelity out of range: "; ODouble fidelity; OStr nl])
      else
        let tq := set2 (tq_fi_ d) control target fidelity in
        let tq := if negb directed then set2 tq target control fidelity else tq in
        (mkDevice (n_ d) (sq_fi_ d) adj tq, cerr)
    else (mkDevice (n_ d) (sq_fi_ d) adj (tq_fi_ d), cerr).

End Device.

(** [set_fidelity]: the device and [std::cerr] before the call are mapped
    to their values after it (the messages end without a newline). *)
Definition set_fidelity (qubit : Z) (fidelity : float)
    (st : Device * list Out) : Device * list Out :=
  let '(d, cerr) := st in
  if (qubit <? 0) || (qubit >=? n_ d) then
    (d, cerr ++ [OStr "Qubit out of range: "; OInt qubit])
  else if PrimFloat.ltb fidelity 0 || PrimFloat.ltb 1 fidelity then
    (d, cerr ++ [OStr "Fidelity out of range: "; ODouble fidelity])
  else
    (mkDevice (n_ d) (<[Z.to_nat qubit := fidelity]> (sq_fi_ d))
       (adj_ d) (tq_fi_ d), cerr).

(** [m[i][j]], where the vector of vectors has that entry. *)
Definition at2 {A} (m : list (list A)) (i j : Z) : option A :=
  if (0 <=? i) && (0 <=? j) then
    match m !! Z.to_nat i with
    | Some row => row !! Z.to_nat j
    | None => None
    end
  else None.

(** The shape the constructor gives a device: [n_] positive, [sq_fi_] of
    length [n_], [adj_] and [tq_fi_] of [n_] rows of length [n_]. *)
Definition well_shaped (d : Device) : bool :=
  (0 <? n_ d)
  && (Z.of_nat (length (sq_fi_ d)) =? n_ d)
  && (Z.of_nat (length (adj_ d)) =? n_ d)
  && forallb (λ row, Z.of_nat (length row) =? n_ d) (adj_ d)
  && (Z.of_nat (length (tq_fi_ d)) =? n_ d)
  && forallb (λ row, Z.of_nat (length row) =? n_ d) (tq_fi_ d).

End pystaq.

(** ** Predicates used in the statements *)

Definition in_range (n i : Z) : bool := (0 <=? i) && (i <? n).

(** The symmetric closure of the coupling relation. *)
Definition linked (d : Device) (i j : Z) : bool :=
  coupled d i j || coupled d j i.

Fixpoint chain_linked (d : Device) (i : Z) (chain : list Z) : bool :=
  match chain with
  | [] => true
  | j :: rest => linked d i j && chain_linked d j rest
  end.

(** The contract of [shortest_path] on one pair of qubits: successive
    qubits of the path, the source first, are linked, the path stays inside
    the device and, when it is not empty, it ends with the destination. *)
Definition path_ok (d : Device) (c t : Z) : bool :=
  let p := shortest_path d c t in
  chain_linked d c p
  && forallb (in_range (qubits_ d)) p
  && match last p with
     | Some e => e =? t
     | None => true
     end.

Definition Device_wf (d : Device) : bool :=
  forallb (λ c, forallb (path_ok d c) (seqZ 0 (qubits_ d)))
          (seqZ 0 (qubits_ d)).

(** The permutation is a bijection on [{0..n-1}]: its keys are exactly
    [0..n-1], its values lie in that range, no value occurs twice and every
    value occurs. *)
Record perm_ok (n : Z) (p : gmap Z Z) : Prop := mk_perm_ok {
  perm_dom : ∀ k, is_Some (p !! k) ↔ 0 ≤ k < n;
  perm_range : ∀ k v, p !! k = Some v → 0 ≤ v < n;
  perm_inj : ∀ k1 k2 v, p !! k1 = Some v → p !! k2 = Some v → k1 = k2;
  perm_surj : ∀ v, 0 ≤ v < n → ∃ k, p !! k = Some v
}.

(** Operand pairs of the two-qubit gates of a program. *)
Definition gate_operands (g : Gate) : list (Z * Z) :=
  match g with
  | CNOTGate c t => [(offset c, offset t)]
  | DeclaredGate _ _ [a; b] => [(offset a, offset b)]
  | _ => []
  end.

Definition stmt_operands (s : Stmt) : list (Z * Z) :=
  match s with
  | GateStmt g => gate_operands g
  | _ => []
  end.

Definition two_qubit_operands (prog : Program) : list (Z * Z) :=
  prog ≫= stmt_operands.

(** What the layout applier leaves for the mapper: every reference to the
    global register has an offset inside the device, two-qubit gates act on
    the global register, and no call to a declared gate is left. *)
Definition ref_ok (n : Z) (va : VarAccess) : bool :=
  negb (String.eqb (var va) SwapMapper.register_name) || in_range n (offset va).

Definition qubit_ok (n : Z) (va : VarAccess) : bool :=
  String.eqb (var va) SwapMapper.register_name && in_range n (offset va).

Definition gate_ok (n : Z) (g : Gate) : bool :=
  match g with
  | UGate _ _ _ arg => ref_ok n arg
  | CNOTGate c t => qubit_ok n c && qubit_ok n t
  | BarrierGate args => forallb (ref_ok n) args
  | DeclaredGate _ _ _ => false
  end.

Definition stmt_ok (n : Z) (s : Stmt) : bool :=
  match s with
  | GateStmt g => gate_ok n g
  | MeasureStmt a c => ref_ok n a && ref_ok n c
  | ResetStmt a => ref_ok n a
  | _ => true
  end.

Definition program_ok (n : Z) (prog : Program) : bool := forallb (stmt_ok n) prog.

(** The exchange of [i] and [j], the map the permutation update applies to
    every entry. *)
Definition transpose (i j q : Z) : Z :=
  if q =? i then j else if q =? j then i else q.

(** A pair of operands is supported when the device couples control to
    target, local when it is in the symmetric closure. *)
Definition supported (d : Device) (p : Z * Z) : Prop := coupled d p.1 p.2 = true.
Definition local (d : Device) (p : Z * Z) : Prop := linked d p.1 p.2 = true.

Definition gates_operands (gs : list Gate) : list (Z * Z) := gs ≫= gate_operands.

(** The diagnostic of [replace(CNOTGate&)]. *)
Definition no_connection (ctrl tgt : Z) : list Out :=
  [OStr "Error: could not find a connection between qubits ";
   OInt ctrl; OStr " and "; OInt tgt; OStr nl].



(** The qubits a gate acts on, with their register names. *)
Definition gate_qubits (g : Gate) : list VarAccess :=
  match g with
  | UGate _ _ _ arg => [arg]
  | CNOTGate c t => [c; t]
  | BarrierGate args => args
  | DeclaredGate _ _ q_args => q_args
  end.


(** A gate the mapper emits for a step from the slot [i] along [chain]: a
    generated CNOT or Hadamard, on the global register, on [i] or on slots
    of [chain]. *)
Definition emitted_gate_ok (i : Z) (chain : list Z) (g : Gate) : Prop :=
  ((∃ a b, g = SwapMapper.generate_cnot a b) ∨ (∃ a, g = SwapMapper.generate_hadamard a))
  ∧ Forall (λ va, var va = SwapMapper.register_name ∧ (offset va = i ∨ offset va ∈ chain))
           (gate_qubits g).

(** A vector of [n] vectors of length [n]. *)
Definition square {A} (n : Z) (m : list (list A)) : Prop :=
  Z.of_nat (length m) = n ∧ Forall (λ row, Z.of_nat (length row) = n) m.

(** ** Unitary semantics

    Amplitudes are complex numbers over the reals; a state assigns an
    amplitude to every basis state, a basis state gives a bit to every
    qubit index.  A gate acts on states: [U(theta, phi, lambda)] by its
    matrix on the bit of its qubit, [CX] by adding the control bit to the
    target bit.  [gphase] is the convention for the overall phase of [U]:
    the matrix below is multiplied by [exp (i * gphase theta phi lambda)]
    (0 in the Qiskit definition, [-(phi + lambda) / 2] in the OpenQASM 2.0
    definition). *)

Module complex.

Definition C : Type := (R * R)%type.
Definition C0 : C := (0, 0)%R.
Definition C1 : C := (1, 0)%R.
Definition Cadd (a b : C) : C := (a.1 + b.1, a.2 + b.2)%R.
Definition Cmul (a b : C) : C :=
  (a.1 * b.1 - a.2 * b.2, a.1 * b.2 + a.2 * b.1)%R.
Definition Copp (a : C) : C := (- a.1, - a.2)%R.
Definition Csub (a b : C) : C := Cadd a (Copp b).
Definition RtoC (r : R) : C := (r, 0%R).
(** [exp (i t)] *)
Definition Cexp (t : R) : C := (cos t, sin t).
(** The square of the modulus. *)
Definition Cnorm2 (a : C) : R := (a.1 * a.1 + a.2 * a.2)%R.

End complex.

Module sem.
Import complex.

Fixpoint eval (e : Expr) : R :=
  match e with
  | PiExpr => PI
  | IntExpr value => IZR value
  | BExpr lexp op rexp =>
      match op with
      | Plus => eval lexp + eval rexp
      | Minus => eval lexp - eval rexp
      | Times => eval lexp * eval rexp
      | Divide => eval lexp / eval rexp
      | Pow => Rpower (eval lexp) (eval rexp)
      end
  | UExpr op subexp =>
      match op with
      | Neg => - eval subexp
      | Sin => sin (eval subexp)
      | Cos => cos (eval subexp)
      | Tan => tan (eval subexp)
      | Ln => ln (eval subexp)
      | Sqrt => sqrt (eval subexp)
      | Exp => exp (eval subexp)
      end
  end%R.

(** A matrix on one qubit: row (the bit after), column (the bit before). *)
Definition matrix : Type := bool → bool → C.

Definition U_matrix (gphase theta phi lambda : R) : matrix :=
  λ row col,
    Cmul (Cexp gphase)
      match row, col with
      | false, false => RtoC (cos (theta / 2))
      | false, true => Copp (Cmul (Cexp lambda) (RtoC (sin (theta / 2))))
      | true, false => Cmul (Cexp phi) (RtoC (sin (theta / 2)))
      | true, true => Cmul (Cexp (phi + lambda)) (RtoC (cos (theta / 2)))
      end.

Definition basis : Type := Z → bool.
Definition vec : Type := basis → C.

Definition upd (x : basis) (k : Z) (b : bool) : basis :=
  λ k', if k' =? k then b else x k'.

Definition apply1 (m : matrix) (k : Z) (psi : vec) : vec :=
  λ x, Cadd (Cmul (m (x k) false) (psi (upd x k false)))
            (Cmul (m (x k) true) (psi (upd x k true))).

Definition cnot (c t : Z) (psi : vec) : vec :=
  λ x, psi (upd x t (xorb (x t) (x c))).

Definition permute (sigma : Z → Z) (psi : vec) : vec :=
  λ x, psi (λ k, x (sigma k)).

Definition scale (c : C) (psi : vec) : vec := λ x, Cmul c (psi x).

Section Convention.
Variable gphase : R → R → R → R.

Definition gate_sem (g : Gate) : vec → vec :=
  match g with
  | UGate theta phi lambda arg =>
      apply1 (U_matrix (gphase (eval theta) (eval phi) (eval lambda))
                (eval theta) (eval phi) (eval lambda)) (offset arg)
  | CNOTGate ctrl tgt => cnot (offset ctrl) (offset tgt)
  | BarrierGate _ | DeclaredGate _ _ _ => λ psi, psi
  end.

Definition gates_sem (gs : list Gate) (psi : vec) : vec :=
  foldl (λ phi g, gate_sem g phi) psi gs.

Definition stmt_sem (s : Stmt) : vec → vec :=
  match s with
  | GateStmt g => gate_sem g
  | _ => λ psi, psi
  end.

Definition program_sem (prog : Program) (psi : vec) : vec :=
  foldl (λ phi s, stmt_sem s phi) psi prog.

End Convention.

Definition perm_fun (p : gmap Z Z) (k : Z) : Z := default k (p !! k).

End sem.

Import complex sem.

(** The Hadamard matrix, up to the factor [kappa]. *)
Definition hadamard (kappa : C) : matrix :=
  λ row col,
    Cmul kappa (RtoC (if row && col then - (1 / sqrt 2) else 1 / sqrt 2)%R).

(** The inverse of the permutation, and the relabelling of the permutation
    matrix of [p]: [perm_fun p] is [p] on its keys and the identity
    elsewhere. *)
Definition inverse_permutation (p : gmap Z Z) : gmap Z Z :=
  list_to_map (prod_swap <$> map_to_list p).

Definition unit_phase (c : C) : Prop := Cnorm2 c = 1%R.

(** Programs with a unitary: gates [U] and [CX] on the global register, the
    two operands of a [CX] distinct, barriers and declarations. *)
Definition unitary_gate_ok (n : Z) (g : Gate) : bool :=
  match g with
  | UGate _ _ _ arg => qubit_ok n arg
  | CNOTGate c t => qubit_ok n c && qubit_ok n t && negb (offset c =? offset t)
  | BarrierGate args => forallb (ref_ok n) args
  | DeclaredGate _ _ _ => false
  end.

Definition unitary_stmt_ok (n : Z) (s : Stmt) : bool :=
  match s with
  | GateStmt g => unitary_gate_ok n g
  | MeasureStmt _ _ | ResetStmt _ => false
  | GateDecl _ _ | OracleDecl _ _ | RegisterDecl _ _ _ => true
  end.

Definition unitary_program (n : Z) (prog : Program) : bool :=
  forallb (unitary_stmt_ok n) prog.

(** ** The SWAP encoding, in the words of the specification

    A SWAP of the slots [a], [b] is [CNOT a b; CNOT b a; CNOT a b], the
    labels exchanged beforehand so that the first CNOT goes along a
    supported direction; each CNOT whose direction is not supported is
    replaced by [H c; H t; CNOT t c; H c; H t]; a Hadamard is the gate
    [U(pi/2, 0, pi)]. *)

Module spec.

Definition H (x : Z) : Gate :=
  UGate (BExpr PiExpr Divide (IntExpr 2)) (IntExpr 0) PiExpr (mkVarAccess "q" x).

Definition CNOT (c t : Z) : Gate :=
  CNOTGate (mkVarAccess "q" c) (mkVarAccess "q" t).

Definition sandwich (c t : Z) : list Gate :=
  [H c; H t; CNOT t c; H c; H t].

Definition cnot_along (d : Device) (c t : Z) : list Gate :=
  if coupled d c t then [CNOT c t] else sandwich c t.

Definition swap (d : Device) (a b : Z) : list Gate :=
  let '(a, b) := if coupled d a b then (a, b) else (b, a) in
  cnot_along d a b ++ cnot_along d b a ++ cnot_along d a b.

End spec.

(** ** Examples *)

(** The three-qubit line 0 - 1 - 2 with symmetric edges. *)
Definition line3 : Device :=
  device.make 3 [[false; true; false]; [true; false; true]; [false; true; false]].

Definition q (i : Z) : VarAccess := mkVarAccess "q" i.
Definition CX (i j : Z) : Stmt := GateStmt (CNOTGate (q i) (q j)).

(** Four qubits: the line 0 - 1 - 2 and the isolated qubit 3. *)
Definition line3_and_one : Device :=
  device.make 4 [[false; true; false; false]; [true; false; true; false];
                 [false; true; false; false]; [false; false; false; false]].

(** ** The claims that fail on the code, as they are stated *)

(** C3 as stated: when a gate has no connecting path, an error is reported
    and the program is not rewritten in part. *)
Definition aborts_without_rewrite (d : Device) (prog : Program) : Prop :=
  let '(_, prog', err) := map_onto_device d prog in
  err ≠ [] → prog' = prog.

(** C8 as stated: a reference outside the device does not yield a rewritten
    reference. *)
Definition out_of_range_is_fatal (d : Device) (va : VarAccess) : Prop :=
  ¬ (0 ≤ offset va < qubits_ d) →
  (SwapMapper.replace_VarAccess va (SwapMapper.init d)).1 = None.

(** C9 as stated: a call of [add_edge] with a qubit index outside the
    device, or with a fidelity outside [0, 1], reports an error and leaves
    the adjacency matrix and the two-qubit fidelities as they were. *)
Definition add_edge_ignored (FIDELITY_1 : float) (control target : Z)
    (directed : bool) (fidelity : float) (d : pystaq.Device) : Prop :=
  let '(d', err) :=
    pystaq.add_edge FIDELITY_1 control target directed fidelity (d, []) in
  err ≠ [] ∧ pystaq.adj_ d' = pystaq.adj_ d ∧ pystaq.tq_fi_ d' = pystaq.tq_fi_ d.

Definition index_out_of_range (d : pystaq.Device) (control target : Z) : bool :=
  (control <? 0) || (control >=? pystaq.n_ d)
  || (target <? 0) || (target >=? pystaq.n_ d).

Definition fidelity_out_of_range (fidelity : float) : bool :=
  PrimFloat.ltb fidelity 0 || PrimFloat.ltb 1 fidelity.

(** The selectors [Program::map] recognises. *)
Definition layout_names : list string := ["linear"; "eager"; "bestfit"].
Definition mapper_names : list string := ["swap"; "steiner"].

Definition known (names : list string) (name : string) : bool :=
  existsb (String.eqb name) names.

(** C4 as stated: with an unknown layout or mapper name, [Program::map]
    reports an error and leaves the program as it was. *)
Definition selector_error_keeps_program (tc : pystaq.collaborators)
    (layout_name mapper : string) (evaluate_all : bool) (device_json : string)
    (prog : Program) : Prop :=
  known layout_names layout_name && known mapper_names mapper = false →
  let '(prog', err) :=
    pystaq.map tc layout_name mapper evaluate_all device_json (prog, []) in
  err ≠ [] ∧ prog' = prog.

(** Modelled from the spec: the collaborators of [Program::map] are not
    among the sources.  Of inlining the mapping subsystem relies on one
    thing, that no gate or oracle declaration is left in the program (the
    call passes [keep_declarations = false]); on a program without calls to
    declared gates there is nothing else to inline.  The other
    collaborators are not reached when the layout name is unknown; they
    get the simplest value of their type. *)
Definition is_declaration (s : Stmt) : bool :=
  match s with
  | GateDecl _ _ | OracleDecl _ _ => true
  | _ => false
  end.

(** Modelled from the spec: [transformations::inline_ast] (not among the
    sources) on a program without calls to declared gates. *)
Definition clear_declarations (prog : Program) (cfg : pystaq.inline_config)
    : Program :=
  if pystaq.keep_declarations cfg then prog
  else List.filter (λ s, negb (is_declaration s)) prog.

(** Modelled from the spec: [mapping::fully_connected] (not among the
    sources), the device that couples every pair of distinct qubits. *)
Definition fully_connected (n : Z) : Device :=
  device.make n
    ((λ i, (λ j, negb (i =? j)) <$> seqZ 0 n) <$> seqZ 0 n).

(** Modelled from the spec: [tools::estimate_qubits] (not among the
    sources), the number of qubits the program declares. *)
Definition declared_qubits (prog : Program) : Z :=
  foldr (λ s acc, match s with
                  | RegisterDecl _ true size => size + acc
                  | _ => acc
                  end) 0 prog.

(** Modelled from the spec: collaborators of [Program::map] for a call
    with an unknown layout name, where only [inline_ast] is reached. *)
Definition declarations_cleared : pystaq.collaborators :=
  pystaq.mk_collaborators unit
    clear_declarations
    (λ _, fully_connected 1)
    fully_connected
    declared_qubits
    (λ _ _, tt) (λ _ _, tt) (λ _ _, tt)
    (λ _ _ prog, prog)
    (λ _ prog, prog)
    (λ prog _, prog).

(** The default fidelity of the examples, the [double] nearest to 0.99,
    and the wrapper's device on two qubits as its constructor builds it. *)
Definition fidelity_099 : float := 0x1.fae147ae147aep-1%float.

Definition two_qubits : pystaq.Device :=
  pystaq.mkDevice 2 [fidelity_099; fidelity_099]
    [[false; false]; [false; false]]
    [[fidelity_099; fidelity_099]; [fidelity_099; fidelity_099]].

(** * Proofs *)

Import SwapMapper.

Lemma in_range_spec n i : in_range n i = true ↔ 0 ≤ i < n.
Proof. unfold in_range. rewrite andb_true_iff, Z.leb_le, Z.ltb_lt. tauto. Qed.

Lemma Device_wf_path d c t :
  Device_wf d = true → 0 ≤ c < qubits_ d → 0 ≤ t < qubits_ d →
  path_ok d c t = true.
Proof.
  unfold Device_wf. rewrite forallb_forall. intros H Hc Ht.
  specialize (H c). rewrite forallb_forall in H.
  apply H; apply list_elem_of_In, elem_of_seqZ; lia.
Qed.

(** *** The permutation *)

Lemma init_permutation_fold (l : list Z) (m : gmap Z Z) (k : Z) :
  foldl (λ p i, <[i := i]> p) m l !! k
  = if decide (k ∈ l) then Some k else m !! k.
Proof.
  revert m. induction l as [|x l IH]; intros m; simpl.
  - done.
  - rewrite IH. destruct (decide (k = x)) as [->|Hne].
    + rewrite lookup_insert_eq.
      destruct (decide (x ∈ l)), (decide (x ∈ x :: l)) as [|Hn]; try done;
        exfalso; apply Hn, elem_of_cons; auto.
    + rewrite lookup_insert_ne by done.
      destruct (decide (k ∈ l)) as [Hl|Hl], (decide (k ∈ x :: l)) as [Hn|Hn];
        try done; exfalso.
      * apply Hn, elem_of_cons; auto.
      * apply elem_of_cons in Hn as [?|?]; auto.
Qed.

Lemma init_permutation_lookup (n k : Z) :
  init_permutation n !! k = if decide (0 ≤ k < n) then Some k else None.
Proof.
  unfold init_permutation. rewrite init_permutation_fold.
  destruct (decide (k ∈ seqZ 0 n)) as [Hk|Hk], (decide (0 ≤ k < n));
    try done; exfalso; rewrite elem_of_seqZ in Hk; lia.
Qed.

Lemma init_permutation_ok (n : Z) : perm_ok n (init_permutation n).
Proof.
  split.
  - intros k. rewrite init_permutation_lookup.
    destruct (decide (0 ≤ k < n)).
    + split; [done | eauto].
    + split; [intros [? ?]; done | done].
  - intros k v. rewrite init_permutation_lookup.
    destruct (decide (0 ≤ k < n)); [|done]. by intros [= <-].
  - intros k1 k2 v. rewrite !init_permutation_lookup.
    destruct (decide (0 ≤ k1 < n)), (decide (0 ≤ k2 < n)); try done.
    by intros [= <-] [= <-].
  - intros v Hv. exists v. rewrite init_permutation_lookup.
    destruct (decide (0 ≤ v < n)); done.
Qed.

Lemma transpose_involutive i j q : transpose i j (transpose i j q) = q.
Proof. unfold transpose. repeat (case_match; try lia). Qed.

Lemma adjust_permutation_lookup i j p k :
  adjust_permutation i j p !! k = transpose i j <$> p !! k.
Proof. unfold adjust_permutation. by rewrite lookup_fmap. Qed.

Lemma adjust_permutation_ok n i j p :
  0 ≤ i < n → 0 ≤ j < n → perm_ok n p → perm_ok n (adjust_permutation i j p).
Proof.
  intros Hi Hj [Hd Hr Hin Hs]. split.
  - intros k. rewrite adjust_permutation_lookup, <- Hd.
    by rewrite fmap_is_Some.
  - intros k v. rewrite adjust_permutation_lookup.
    intros (w & Hw & ->)%fmap_Some. apply Hr in Hw.
    unfold transpose. repeat case_match; lia.
  - intros k1 k2 v. rewrite !adjust_permutation_lookup.
    intros (w1 & Hw1 & ->)%fmap_Some (w2 & Hw2 & Heq)%fmap_Some.
    apply (f_equal (transpose i j)) in Heq.
    rewrite !transpose_involutive in Heq. subst. eauto.
  - intros v Hv.
    destruct (Hs (transpose i j v)) as [k Hk].
    { unfold transpose. repeat case_match; lia. }
    exists k. rewrite adjust_permutation_lookup, Hk. simpl.
    by rewrite transpose_involutive.
Qed.

(** *** The swap chain *)

Lemma supported_local d p : supported d p → local d p.
Proof. unfold supported, local, linked. intros ->. done. Qed.

Lemma final_cnot_supported d i j :
  linked d i j = true → Forall (supported d) (gates_operands (final_cnot d i j)).
Proof.
  unfold linked, final_cnot, supported. intros H.
  destruct (coupled d i j) eqn:E; simpl in *.
  - repeat constructor. done.
  - repeat constructor. done.
Qed.

Lemma swap_gates_supported d i j :
  linked d i j = true → Forall (supported d) (gates_operands (swap_gates d i j)).
Proof.
  unfold linked, swap_gates, supported. intros H.
  destruct (coupled d i j) eqn:E; simpl in *.
  - destruct (coupled d j i) eqn:E'; simpl; repeat constructor; done.
  - rewrite E. simpl. repeat constructor; done.
Qed.

Lemma gates_operands_app gs1 gs2 :
  gates_operands (gs1 ++ gs2) = gates_operands gs1 ++ gates_operands gs2.
Proof. unfold gates_operands. apply bind_app. Qed.

Lemma swap_chain_ok d n chain : ∀ tgt i s gs s',
  chain_linked d i chain = true →
  forallb (in_range n) chain = true →
  0 ≤ i < n →
  perm_ok n (permutation_ s) →
  swap_chain d tgt i chain s = (gs, s') →
  perm_ok n (permutation_ s') ∧ cerr s' = cerr s
  ∧ Forall (supported d) (gates_operands gs).
Proof.
  induction chain as [|j rest IH]; intros tgt i s gs s' Hl Hr Hi Hp; simpl.
  - intros [= <- <-]. split_and!; [done | done | constructor].
  - simpl in Hl, Hr.
    apply andb_true_iff in Hl as [Hij Hl]. apply andb_true_iff in Hr as [Hj Hr].
    apply in_range_spec in Hj.
    destruct (j =? tgt) eqn:Et.
    + intros [= <- <-]. split_and!; [done | done |].
      by apply final_cnot_supported.
    + destruct (j =? i) eqn:Ei; simpl.
      * by apply IH.
      * unfold bind, get_perm, put_perm; simpl.
        destruct (swap_chain d tgt j rest _) as [more s1] eqn:Em.
        intros [= <- <-].
        apply IH in Em as (Hp1 & Hc1 & Hg1); simpl; try done.
        -- split_and!; [done | done |].
           rewrite gates_operands_app. apply Forall_app. split; [|done].
           by apply swap_gates_supported.
        -- by apply adjust_permutation_ok.
Qed.

(** *** One gate, one statement, the program *)

Lemma replace_CNOTGate_empty d c t s :
  shortest_path d (offset c) (offset t) = [] →
  replace_CNOTGate d c t s
  = (None, mkState (permutation_ s) (cerr s ++ no_connection (offset c) (offset t))).
Proof. unfold replace_CNOTGate. intros ->. reflexivity. Qed.

Lemma replace_CNOTGate_path d c t s :
  shortest_path d (offset c) (offset t) ≠ [] →
  replace_CNOTGate d c t s
  = let '(gs, s') :=
      swap_chain d (offset t) (offset c) (shortest_path d (offset c) (offset t)) s
    in (Some gs, s').
Proof.
  unfold replace_CNOTGate. destruct (shortest_path d _ _) eqn:E; [done|].
  intros _. unfold bind, ret. by destruct (swap_chain _ _ _ _ _).
Qed.

Section Invariant.
Variable d : Device.
Hypothesis d_wf : Device_wf d = true.
Let n := qubits_ d.

Lemma replace_CNOTGate_ok c t s r s' :
  0 ≤ offset c < n → 0 ≤ offset t < n →
  perm_ok n (permutation_ s) →
  replace_CNOTGate d c t s = (r, s') →
  perm_ok n (permutation_ s')
  ∧ match r with
    | None => permutation_ s' = permutation_ s
              ∧ cerr s' = cerr s ++ no_connection (offset c) (offset t)
    | Some gs => cerr s' = cerr s ∧ Forall (supported d) (gates_operands gs)
    end.
Proof.
  intros Hc Ht Hp.
  pose proof (Device_wf_path d _ _ d_wf Hc Ht) as Hok.
  unfold path_ok in Hok.
  apply andb_true_iff in Hok as [Hok _].
  apply andb_true_iff in Hok as [Hl Hr].
  destruct (shortest_path d (offset c) (offset t)) as [|j rest] eqn:E.
  - rewrite replace_CNOTGate_empty by done. intros [= <- <-]. done.
  - rewrite replace_CNOTGate_path by (rewrite E; done). rewrite E.
    destruct (swap_chain _ _ _ _ _) as [gs s1] eqn:Es.
    intros [= <- <-].
    eapply swap_chain_ok in Es as (? & ? & ?); eauto.
Qed.

Lemma perm_index_ok k s :
  0 ≤ k < n → perm_ok n (permutation_ s) →
  ∃ v, perm_index k s = (v, s) ∧ permutation_ s !! k = Some v ∧ 0 ≤ v < n.
Proof.
  intros Hk Hp. destruct (perm_dom _ _ Hp k) as [_ [v Hv]]; [done|].
  exists v. unfold perm_index, bind, get_perm. rewrite Hv.
  split; [done|]. split; [done|]. by eapply perm_range.
Qed.

Lemma visit_VarAccess_ref va s :
  ref_ok n va = true → perm_ok n (permutation_ s) →
  ∃ va', visit_VarAccess va s = (va', s) ∧ ref_ok n va' = true
         ∧ var va' = var va.
Proof.
  unfold ref_ok, visit_VarAccess, replace_VarAccess, bind. intros Hr Hp.
  destruct (String.eqb (var va) register_name) eqn:E; simpl in *.
  - apply in_range_spec in Hr.
    destruct (perm_index_ok _ s Hr Hp) as (v & -> & _ & Hv).
    eexists. split; [reflexivity|]. simpl. rewrite E. simpl.
    split; [by apply in_range_spec | done].
  - eexists. split; [reflexivity|]. by rewrite E.
Qed.

Lemma visit_VarAccess_qubit va s :
  qubit_ok n va = true → perm_ok n (permutation_ s) →
  ∃ v, visit_VarAccess va s = (mkVarAccess register_name v, s)
       ∧ permutation_ s !! offset va = Some v ∧ 0 ≤ v < n.
Proof.
  unfold qubit_ok, visit_VarAccess, replace_VarAccess, bind. intros Hq Hp.
  apply andb_true_iff in Hq as [Hv Hr]. rewrite Hv.
  apply in_range_spec in Hr. apply String.eqb_eq in Hv.
  destruct (perm_index_ok _ s Hr Hp) as (v & -> & Hl & Hv').
  exists v. simpl. by rewrite Hv.
Qed.

Lemma visit_VarAccesses_ref vas s :
  forallb (ref_ok n) vas = true → perm_ok n (permutation_ s) →
  ∃ vas', visit_VarAccesses vas s = (vas', s).
Proof.
  induction vas as [|va vas IH]; simpl; intros Hr Hp.
  - by eexists.
  - apply andb_true_iff in Hr as [Hva Hr].
    destruct (visit_VarAccess_ref _ s Hva Hp) as (va' & Hv & _).
    destruct (IH Hr Hp) as (vas' & Hvs).
    unfold bind. rewrite Hv, Hvs. by eexists.
Qed.

(** A visited gate: the permutation stays a bijection, the error stream
    only grows, and when it did not grow the gates put in the program are
    along supported couplings. *)
Lemma visit_Gate_ok g s gs s' :
  gate_ok n g = true → perm_ok n (permutation_ s) →
  visit_Gate d g s = (gs, s') →
  perm_ok n (permutation_ s')
  ∧ ∃ e, cerr s' = cerr s ++ e
         ∧ (e = [] → Forall (supported d) (gates_operands gs)).
Proof.
  intros Hg Hp. destruct g as [th ph la arg|c t|args|name cs qs]; simpl in *.
  - destruct (visit_VarAccess_ref _ s Hg Hp) as (va' & Hv & _).
    unfold bind. rewrite Hv. intros [= <- <-].
    split; [done|]. exists []. rewrite app_nil_r. split; [done|].
    intros _. constructor.
  - apply andb_true_iff in Hg as [Hc Ht].
    destruct (visit_VarAccess_qubit _ s Hc Hp) as (vc & Hvc & _ & Hrc).
    destruct (visit_VarAccess_qubit _ s Ht Hp) as (vt & Hvt & _ & Hrt).
    unfold bind. rewrite Hvc, Hvt.
    destruct (replace_CNOTGate d _ _ s) as [r s1] eqn:Er.
    intros [= <- <-].
    apply replace_CNOTGate_ok in Er as [Hp1 Hr]; simpl; try done.
    split; [done|]. destruct r as [gs|]; simpl in *.
    + destruct Hr as [-> Hf]. exists []. by rewrite app_nil_r.
    + destruct Hr as [_ ->]. eexists. split; [done|]. done.
  - destruct (visit_VarAccesses_ref _ s Hg Hp) as (vas' & Hv).
    unfold bind. rewrite Hv. intros [= <- <-].
    split; [done|]. exists []. rewrite app_nil_r. split; [done|].
    intros _. constructor.
  - done.
Qed.

Lemma two_qubit_operands_gates gs :
  two_qubit_operands (GateStmt <$> gs) = gates_operands gs.
Proof.
  unfold two_qubit_operands, gates_operands.
  induction gs as [|g gs IH]; [done|].
  rewrite fmap_cons, !bind_cons, IH. done.
Qed.

Lemma visit_Stmt_ok st s sts s' :
  stmt_ok n st = true → perm_ok n (permutation_ s) →
  visit_Stmt d st s = (sts, s') →
  perm_ok n (permutation_ s')
  ∧ ∃ e, cerr s' = cerr s ++ e
         ∧ (e = [] → Forall (supported d) (two_qubit_operands sts)).
Proof.
  intros Hst Hp.
  destruct st as [g|a c|a| | |]; simpl in *.
  - unfold bind. destruct (visit_Gate d g s) as [gs s1] eqn:Eg.
    intros [= <- <-].
    apply visit_Gate_ok in Eg as (Hp1 & e & He & Hf); try done.
    split; [done|]. exists e. split; [done|].
    rewrite two_qubit_operands_gates. done.
  - apply andb_true_iff in Hst as [Ha Hc].
    destruct (visit_VarAccess_ref _ s Ha Hp) as (a' & Hva & _).
    destruct (visit_VarAccess_ref _ s Hc Hp) as (c' & Hvc & _).
    unfold bind. rewrite Hva, Hvc. intros [= <- <-].
    split; [done|]. exists []. rewrite app_nil_r. split; [done|].
    intros _. constructor.
  - destruct (visit_VarAccess_ref _ s Hst Hp) as (a' & Hva & _).
    unfold bind. rewrite Hva. intros [= <- <-].
    split; [done|]. exists []. rewrite app_nil_r. split; [done|].
    intros _. constructor.
  - intros [= <- <-]. split; [done|]. exists []. rewrite app_nil_r.
    split; [done|]. intros _. constructor.
  - intros [= <- <-]. split; [done|]. exists []. rewrite app_nil_r.
    split; [done|]. intros _. constructor.
  - intros [= <- <-]. split; [done|]. exists []. rewrite app_nil_r.
    split; [done|]. intros _. constructor.
Qed.

Lemma visit_Program_ok prog : ∀ s prog' s',
  program_ok n prog = true → perm_ok n (permutation_ s) →
  visit_Program d prog s = (prog', s') →
  perm_ok n (permutation_ s')
  ∧ ∃ e, cerr s' = cerr s ++ e
         ∧ (e = [] → Forall (supported d) (two_qubit_operands prog')).
Proof.
  induction prog as [|st rest IH]; intros s prog' s' Hok Hp; simpl.
  - intros [= <- <-]. split; [done|]. exists []. rewrite app_nil_r.
    split; [done|]. intros _. constructor.
  - simpl in Hok. apply andb_true_iff in Hok as [Hst Hrest].
    unfold bind.
    destruct (visit_Stmt d st s) as [sts s1] eqn:Est.
    destruct (visit_Program d rest s1) as [rest' s2] eqn:Er.
    intros [= <- <-].
    apply visit_Stmt_ok in Est as (Hp1 & e1 & He1 & Hf1); try done.
    apply IH in Er as (Hp2 & e2 & He2 & Hf2); try done.
    split; [done|]. exists (e1 ++ e2). split.
    + rewrite He2, He1. by rewrite app_assoc.
    + intros [-> ->]%app_eq_nil.
      unfold two_qubit_operands. rewrite bind_app. apply Forall_app.
      split; [by apply Hf1 | by apply Hf2].
Qed.

End Invariant.

Lemma visit_VarAccess_q k s v :
  permutation_ s !! k = Some v → visit_VarAccess (q k) s = (q v, s).
Proof.
  intros H. unfold visit_VarAccess, replace_VarAccess, perm_index, bind, get_perm.
  simpl. rewrite H. reflexivity.
Qed.

Lemma visit_CX d i j s vi vj :
  permutation_ s !! i = Some vi → permutation_ s !! j = Some vj →
  visit_Stmt d (CX i j) s
  = let '(r, s') := replace_CNOTGate d (q vi) (q vj) s in
    (GateStmt <$> default [CNOTGate (q vi) (q vj)] r, s').
Proof.
  intros Hi Hj. unfold CX, visit_Stmt, visit_Gate, bind.
  rewrite (visit_VarAccess_q _ _ _ Hi), (visit_VarAccess_q _ _ _ Hj).
  by destruct (replace_CNOTGate d (q vi) (q vj) s).
Qed.

Lemma line3_wf : Device_wf line3 = true.
Proof. vm_compute. reflexivity. Qed.

(** A device built by [device.make] has no path from a qubit to itself. *)
Lemma make_path_self n adj c : shortest_path (device.make n adj) c c = [].
Proof. simpl. unfold device.bfs_path. by rewrite Z.eqb_refl. Qed.

(** *** Locality, scenario B, the SWAP encoding, the bijection *)

(** C1 — Locality.  For a device whose [shortest_path] keeps its contract
    and a program as the layout applier leaves it, when mapping succeeds
    (nothing was written to the error stream), every two-qubit gate of the
    mapped program has its operand pair (control, target) in the symmetric
    closure of the coupling relation: [adj[control][target]] or
    [adj[target][control]] holds. *)
Theorem locality (d : Device) (prog : Program) :
  Device_wf d = true →
  program_ok (qubits_ d) prog = true →
  (map_onto_device d prog).2 = [] →
  Forall (λ p, coupled d p.1 p.2 || coupled d p.2 p.1 = true)
         (two_qubit_operands (map_onto_device d prog).1.2).
Proof.
  intros Hwf Hok. unfold map_onto_device, run, bind, get_perm, ret.
  destruct (visit_Program d prog (init d)) as [prog' s'] eqn:E. simpl.
  intros Herr.
  apply (visit_Program_ok d Hwf) in E as (_ & e & He & Hf); try done.
  - simpl in He. rewrite Herr in He. symmetry in He.
    eapply Forall_impl; [apply Hf; exact He|].
    intros p Hp. by apply supported_local in Hp.
  - apply init_permutation_ok.
Qed.

Lemma locality_witness :
  Device_wf line3 = true
  ∧ program_ok (qubits_ line3) [CX 0 2] = true
  ∧ (map_onto_device line3 [CX 0 2]).2 = []
  ∧ Forall (λ p, coupled line3 p.1 p.2 || coupled line3 p.2 p.1 = true)
           (two_qubit_operands (map_onto_device line3 [CX 0 2]).1.2).
Proof.
  split; [vm_compute; reflexivity|].
  split; [vm_compute; reflexivity|].
  split; [vm_compute; reflexivity|].
  apply (locality line3 [CX 0 2]); vm_compute; reflexivity.
Defined.

(** C5 — Scenario B.  On a three-qubit device with the symmetric edges
    (0,1) and (1,2), where the shortest path from 0 to 2 is 1, 2, mapping
    the program [CNOT q[0],q[2]] emits [CNOT q[0],q[1]; CNOT q[1],q[0];
    CNOT q[0],q[1]] (the SWAP of 0 and 1) followed by [CNOT q[1],q[2]], and
    the returned permutation maps 0 to 1, 1 to 0 and 2 to 2. *)
Theorem scenario_B (d : Device) :
  qubits_ d = 3 →
  coupled d 0 1 = true → coupled d 1 0 = true → coupled d 1 2 = true →
  shortest_path d 0 2 = [1; 2] →
  map_onto_device d [CX 0 2]
  = (<[0 := 1]> (<[1 := 0]> {[2 := 2]}),
     [CX 0 1; CX 1 0; CX 0 1; CX 1 2], []).
Proof.
  intros Hn H01 H10 H12 Hp.
  unfold map_onto_device, run, init. rewrite Hn.
  assert (H0 : init_permutation 3 !! 0 = Some 0) by (vm_compute; reflexivity).
  assert (H2 : init_permutation 3 !! 2 = Some 2) by (vm_compute; reflexivity).
  unfold visit_Program, bind.
  rewrite (visit_CX d 0 2 (mkState (init_permutation 3) []) 0 2 H0 H2).
  unfold replace_CNOTGate. simpl. rewrite Hp.
  unfold bind, get_perm, put_perm, ret. simpl.
  unfold swap_gates, final_cnot. rewrite H01. simpl. rewrite H10, H12. simpl.
  reflexivity.
Qed.

Lemma scenario_B_witness :
  map_onto_device line3 [CX 0 2]
  = (<[0 := 1]> (<[1 := 0]> {[2 := 2]}),
     [CX 0 1; CX 1 0; CX 0 1; CX 1 2], []).
Proof. apply (scenario_B line3); vm_compute; reflexivity. Defined.

(** C6 — SWAP encoding.  In the loop of [replace(CNOTGate&)], a step to a
    slot [j] that is linked to the cursor [i] and is neither the target nor
    [i] itself emits the SWAP of the specification: three CNOTs, the labels
    ordered so that the first CNOT is along a supported coupling, the CNOTs
    against the coupling in Hadamard-sandwich form, every Hadamard the gate
    [U(pi/2, 0, pi)]; the permutation is adjusted and the loop goes on from
    [j]. *)
Theorem swap_encoding (d : Device) (tgt i j : Z) (rest : list Z) (s : state) :
  linked d i j = true → j ≠ tgt → j ≠ i →
  swap_chain d tgt i (j :: rest) s
  = (let '(more, s') :=
       swap_chain d tgt j rest
         (mkState (adjust_permutation i j (permutation_ s)) (cerr s)) in
     (spec.swap d i j ++ more, s'))
  ∧ (∃ a b more, spec.swap d i j = spec.CNOT a b :: more
                 ∧ coupled d a b = true
                 ∧ (a = i ∧ b = j ∨ a = j ∧ b = i))
  ∧ (∀ x, generate_hadamard x
          = UGate (BExpr PiExpr Divide (IntExpr 2)) (IntExpr 0) PiExpr
              (mkVarAccess register_name x)).
Proof.
  intros Hl Ht Hi. split; [|split].
  - simpl. apply Z.eqb_neq in Ht, Hi. rewrite Ht, Hi. simpl.
    unfold bind, get_perm, put_perm, ret. simpl.
    destruct (swap_chain d tgt j rest _) as [more s'].
    f_equal. f_equal.
    unfold swap_gates, spec.swap, spec.cnot_along, linked in *.
    destruct (coupled d i j) eqn:Eij; simpl in *.
    + rewrite Eij. reflexivity.
    + rewrite Hl, Eij. reflexivity.
  - unfold spec.swap, spec.cnot_along, linked in *.
    destruct (coupled d i j) eqn:Eij; simpl in *.
    + rewrite Eij. exists i, j. eexists. split; [reflexivity|]. auto.
    + rewrite Hl. exists j, i. eexists. split; [reflexivity|]. auto.
  - reflexivity.
Qed.

Lemma swap_encoding_witness :
  linked line3 0 1 = true ∧ 1 ≠ 2 ∧ 1 ≠ 0
  ∧ swap_chain line3 2 0 [1; 2] (init line3)
    = ([spec.CNOT 0 1; spec.CNOT 1 0; spec.CNOT 0 1; spec.CNOT 1 2],
       mkState (<[0 := 1]> (<[1 := 0]> {[2 := 2]})) []).
Proof.
  split; [vm_compute; reflexivity|].
  split; [lia|]. split; [lia|].
  destruct (swap_encoding line3 2 0 1 [2] (init line3)) as [-> _];
    [vm_compute; reflexivity | lia | lia |].
  vm_compute. reflexivity.
Defined.

(** C7 — The permutation is a bijection.  The constructor builds the
    identity on [{0..n-1}]; the update after a SWAP of two slots of the
    device keeps a bijection on [{0..n-1}] a bijection; so does every
    rewrite of a two-qubit gate whose operands are slots of the device, and
    so does the traversal of a whole program. *)
Theorem permutation_bijection (d : Device) :
  Device_wf d = true →
  (∀ k, 0 ≤ k < qubits_ d → permutation_ (init d) !! k = Some k)
  ∧ perm_ok (qubits_ d) (permutation_ (init d))
  ∧ (∀ i j p, 0 ≤ i < qubits_ d → 0 ≤ j < qubits_ d →
       perm_ok (qubits_ d) p → perm_ok (qubits_ d) (adjust_permutation i j p))
  ∧ (∀ c t s, 0 ≤ offset c < qubits_ d → 0 ≤ offset t < qubits_ d →
       perm_ok (qubits_ d) (permutation_ s) →
       perm_ok (qubits_ d) (permutation_ (replace_CNOTGate d c t s).2))
  ∧ (∀ prog s, program_ok (qubits_ d) prog = true →
       perm_ok (qubits_ d) (permutation_ s) →
       perm_ok (qubits_ d) (permutation_ (visit_Program d prog s).2)).
Proof.
  intros Hwf. split_and!.
  - intros k Hk. simpl. rewrite init_permutation_lookup.
    by destruct (decide (0 ≤ k < qubits_ d)).
  - apply init_permutation_ok.
  - intros i j p Hi Hj Hp. by apply adjust_permutation_ok.
  - intros c t s Hc Ht Hp.
    destruct (replace_CNOTGate d c t s) as [r s'] eqn:E.
    by apply (replace_CNOTGate_ok d Hwf) in E as [? _].
  - intros prog s Hok Hp.
    destruct (visit_Program d prog s) as [prog' s'] eqn:E.
    by apply (visit_Program_ok d Hwf) in E as [? _].
Qed.

Lemma permutation_bijection_witness :
  Device_wf line3 = true
  ∧ perm_ok 3 (permutation_ (visit_Program line3 [CX 0 2] (init line3)).2).
Proof.
  split; [vm_compute; reflexivity|].
  destruct (permutation_bijection line3) as (_ & Hinit & _ & _ & Hprog);
    [vm_compute; reflexivity|].
  apply (Hprog [CX 0 2] (init line3)); [vm_compute; reflexivity | exact Hinit].
Defined.

(** *** Gates without a connecting path *)

Lemma visit_Program_app d p1 : ∀ p2 s,
  visit_Program d (p1 ++ p2) s
  = let '(a, s1) := visit_Program d p1 s in
    let '(b, s2) := visit_Program d p2 s1 in
    (a ++ b, s2).
Proof.
  induction p1 as [|st p1 IH]; intros p2 s; simpl.
  - unfold ret. by destruct (visit_Program d p2 s).
  - unfold bind, ret. destruct (visit_Stmt d st s) as [a s1].
    rewrite IH. destruct (visit_Program d p1 s1) as [b s2].
    destruct (visit_Program d p2 s2) as [c s3] eqn:E.
    by rewrite app_assoc.
Qed.

Lemma visit_Gate_empty_path d ctrl tgt s0 :
  let '(c, s1) := visit_VarAccess ctrl s0 in
  let '(t, s2) := visit_VarAccess tgt s1 in
  shortest_path d (offset c) (offset t) = [] →
  visit_Gate d (CNOTGate ctrl tgt) s0
  = ([CNOTGate c t],
     mkState (permutation_ s2)
       (cerr s2 ++ no_connection (offset c) (offset t))).
Proof.
  simpl. unfold bind.
  destruct (visit_VarAccess ctrl s0) as [c s1].
  destruct (visit_VarAccess tgt s1) as [t s2].
  intros Hp. by rewrite replace_CNOTGate_empty.
Qed.

(** C10 — An empty path leaves the gate in place.  When the shortest path
    computed for the (already permuted) operands of a CNOT gate is empty,
    [replace] writes the diagnostic naming both qubits and returns
    [nullopt]: the gate stays in the program with its permuted operands,
    the permutation is the one before the gate, the rest of the program is
    still visited, and [run] returns the permutation reached at the end. *)
Theorem empty_path_keeps_gate (d : Device) (ctrl tgt : VarAccess)
    (rest : Program) (s0 : state) :
  let '(c, s1) := visit_VarAccess ctrl s0 in
  let '(t, s2) := visit_VarAccess tgt s1 in
  shortest_path d (offset c) (offset t) = [] →
  let s3 := mkState (permutation_ s2)
              (cerr s2 ++ [OStr "Error: could not find a connection between qubits ";
                           OInt (offset c); OStr " and "; OInt (offset t);
                           OStr nl]) in
  replace_CNOTGate d c t s2 = (None, s3)
  ∧ visit_Gate d (CNOTGate ctrl tgt) s0 = ([CNOTGate c t], s3)
  ∧ let '(rest', s4) := visit_Program d rest s3 in
    run d (GateStmt (CNOTGate ctrl tgt) :: rest) s0
    = ((permutation_ s4, GateStmt (CNOTGate c t) :: rest'), s4).
Proof.
  pose proof (visit_Gate_empty_path d ctrl tgt s0) as Hg.
  destruct (visit_VarAccess ctrl s0) as [c s1] eqn:Ec.
  destruct (visit_VarAccess tgt s1) as [t s2] eqn:Et.
  intros Hp. specialize (Hg Hp). split; [|split].
  - by apply replace_CNOTGate_empty.
  - exact Hg.
  - destruct (visit_Program d rest _) as [rest' s4] eqn:Er.
    unfold run, bind. cbn [visit_Program visit_Stmt]. unfold bind.
    rewrite Hg. unfold ret. cbn [fmap list_fmap].
    fold (no_connection (offset c) (offset t)) in Er. rewrite Er.
    reflexivity.
Qed.

Lemma empty_path_keeps_gate_witness :
  shortest_path line3 1 1 = []
  ∧ visit_Gate line3 (CNOTGate (q 1) (q 1)) (init line3)
    = ([CNOTGate (q 1) (q 1)],
       mkState (permutation_ (init line3))
         [OStr "Error: could not find a connection between qubits ";
          OInt 1; OStr " and "; OInt 1; OStr nl]).
Proof.
  split; [vm_compute; reflexivity|].
  pose proof (empty_path_keeps_gate line3 (q 1) (q 1) [CX 0 2] (init line3)) as H.
  rewrite !(visit_VarAccess_q 1 (init line3) 1) in H by (vm_compute; reflexivity).
  destruct H as (_ & H & _); [vm_compute; reflexivity|].
  exact H.
Defined.

(** The error stream only grows. *)
Lemma visit_VarAccess_cerr va s : cerr (visit_VarAccess va s).2 = cerr s.
Proof.
  unfold visit_VarAccess, replace_VarAccess, perm_index, bind, get_perm.
  destruct (String.eqb _ _); [|done]. simpl.
  by destruct (permutation_ s !! offset va).
Qed.

Lemma visit_VarAccesses_cerr vas : ∀ s, cerr (visit_VarAccesses vas s).2 = cerr s.
Proof.
  induction vas as [|va vas IH]; intros s; simpl; [done|].
  unfold bind. pose proof (visit_VarAccess_cerr va s) as H.
  destruct (visit_VarAccess va s) as [va' s1]. specialize (IH s1).
  destruct (visit_VarAccesses vas s1). simpl in *. congruence.
Qed.

Lemma swap_chain_cerr d chain : ∀ tgt i s,
  cerr (swap_chain d tgt i chain s).2 = cerr s.
Proof.
  induction chain as [|j rest IH]; intros tgt i s; simpl; [done|].
  destruct (j =? tgt); [done|]. destruct (j =? i); simpl; [apply IH|].
  unfold bind, get_perm, put_perm. simpl.
  specialize (IH tgt j (mkState (adjust_permutation i j (permutation_ s)) (cerr s))).
  by destruct (swap_chain d tgt j rest _).
Qed.

Lemma visit_Gate_cerr d g s : ∃ e, cerr (visit_Gate d g s).2 = cerr s ++ e.
Proof.
  destruct g as [th ph la arg|c t|args|name cs qs]; simpl; unfold bind.
  - pose proof (visit_VarAccess_cerr arg s).
    destruct (visit_VarAccess arg s). exists []. by rewrite app_nil_r.
  - pose proof (visit_VarAccess_cerr c s) as H1.
    destruct (visit_VarAccess c s) as [c' s1].
    pose proof (visit_VarAccess_cerr t s1) as H2.
    destruct (visit_VarAccess t s1) as [t' s2]. simpl in *.
    destruct (shortest_path d (offset c') (offset t')) as [|j rest] eqn:E.
    + rewrite replace_CNOTGate_empty by done. simpl. rewrite H2, H1. eauto.
    + rewrite replace_CNOTGate_path by (rewrite E; done). rewrite E.
      pose proof (swap_chain_cerr d (j :: rest) (offset t') (offset c') s2) as H3.
      destruct (swap_chain _ _ _ _ _). simpl in *.
      exists []. rewrite app_nil_r. congruence.
  - pose proof (visit_VarAccesses_cerr args s).
    destruct (visit_VarAccesses args s). exists []. by rewrite app_nil_r.
  - pose proof (visit_VarAccesses_cerr qs s).
    destruct (visit_VarAccesses qs s). exists []. by rewrite app_nil_r.
Qed.

Lemma visit_Stmt_cerr d st s : ∃ e, cerr (visit_Stmt d st s).2 = cerr s ++ e.
Proof.
  destruct st as [g|a c|a| | |]; simpl; unfold bind;
    try (exists []; by rewrite app_nil_r).
  - destruct (visit_Gate_cerr d g s) as [e He].
    destruct (visit_Gate d g s). eauto.
  - pose proof (visit_VarAccess_cerr a s) as H1.
    destruct (visit_VarAccess a s) as [a' s1].
    pose proof (visit_VarAccess_cerr c s1) as H2.
    destruct (visit_VarAccess c s1). simpl in *.
    exists []. rewrite app_nil_r. congruence.
  - pose proof (visit_VarAccess_cerr a s).
    destruct (visit_VarAccess a s). exists []. by rewrite app_nil_r.
Qed.

Lemma visit_Program_cerr d prog : ∀ s,
  ∃ e, cerr (visit_Program d prog s).2 = cerr s ++ e.
Proof.
  induction prog as [|st rest IH]; intros s; simpl.
  - exists []. by rewrite app_nil_r.
  - unfold bind. destruct (visit_Stmt_cerr d st s) as [e1 He1].
    destruct (visit_Stmt d st s) as [a s1]. destruct (IH s1) as [e2 He2].
    destruct (visit_Program d rest s1). simpl in *.
    exists (e1 ++ e2). rewrite He2, He1. by rewrite app_assoc.
Qed.

(** C3, amended — A gate without a connecting path does not abort the
    pass.  The mapper writes the diagnostic naming both (permuted) qubits
    and goes on: the statements before the gate are rewritten, the gate
    stays with its permuted operands, the statements after it are
    rewritten from the same permutation, and the permutation is returned. *)
Theorem disconnected_gate_is_kept (d : Device) (pre post : Program)
    (ctrl tgt : VarAccess) :
  let '(pre', s1) := visit_Program d pre (init d) in
  let '(c, s2) := visit_VarAccess ctrl s1 in
  let '(t, s3) := visit_VarAccess tgt s2 in
  shortest_path d (offset c) (offset t) = [] →
  let '(post', s4) :=
    visit_Program d post
      (mkState (permutation_ s3)
         (cerr s3 ++ no_connection (offset c) (offset t))) in
  map_onto_device d (pre ++ GateStmt (CNOTGate ctrl tgt) :: post)
  = (permutation_ s4, pre' ++ GateStmt (CNOTGate c t) :: post', cerr s4)
  ∧ ∃ e1 e2, cerr s4 = e1 ++ no_connection (offset c) (offset t) ++ e2.
Proof.
  unfold map_onto_device, run, bind, get_perm, ret.
  rewrite visit_Program_app.
  destruct (visit_Program d pre (init d)) as [pre' s1].
  pose proof (visit_Gate_empty_path d ctrl tgt s1) as Hg.
  destruct (visit_VarAccess ctrl s1) as [c s2].
  destruct (visit_VarAccess tgt s2) as [t s3].
  intros Hp. specialize (Hg Hp).
  destruct (visit_Program_cerr d post
              (mkState (permutation_ s3)
                 (cerr s3 ++ no_connection (offset c) (offset t)))) as [e2 He2].
  destruct (visit_Program d post _) as [post' s4] eqn:Epost.
  cbn [visit_Program visit_Stmt]. unfold bind. rewrite Hg. unfold ret.
  cbn [fmap list_fmap]. rewrite Epost. simpl. split; [done|].
  simpl in He2. exists (cerr s3), e2. by rewrite He2, <- app_assoc.
Qed.

Lemma disconnected_gate_is_kept_witness :
  shortest_path line3_and_one 1 3 = []
  ∧ map_onto_device line3_and_one [CX 0 2; CX 0 3; CX 1 2]
    = (<[0 := 0]> (<[1 := 1]> (<[2 := 2]> {[3 := 3]})),
       [CX 0 1; CX 1 0; CX 0 1; CX 1 2; CX 1 3;
        CX 0 1; CX 1 0; CX 0 1; CX 1 2],
       [OStr "Error: could not find a connection between qubits ";
        OInt 1; OStr " and "; OInt 3; OStr nl]).
Proof.
  split; [vm_compute; reflexivity|].
  pose proof (disconnected_gate_is_kept line3_and_one [CX 0 2] [CX 1 2]
                (q 0) (q 3)) as H.
  destruct (visit_Program line3_and_one [CX 0 2] _) as [pre' s1] eqn:E1 in H.
  vm_compute in E1. injection E1 as <- <-.
  rewrite (visit_VarAccess_q 0 _ 1), (visit_VarAccess_q 3 _ 3) in H
    by (vm_compute; reflexivity).
  specialize (H ltac:(vm_compute; reflexivity)).
  destruct (visit_Program line3_and_one [CX 1 2] _) as [post' s4] eqn:E4 in H.
  vm_compute in E4. injection E4 as <- <-.
  destruct H as [H _].
  etransitivity; [exact H | vm_compute; reflexivity].
Defined.

(** C3, as stated, fails: on the line 0 - 1 - 2 with the isolated qubit 3,
    the program [CNOT q[0],q[2]; CNOT q[0],q[3]] has its first gate
    replaced by a SWAP and a CNOT although the second gate has no
    connecting path. *)
Lemma disconnected_no_abort :
  ¬ aborts_without_rewrite line3_and_one [CX 0 2; CX 0 3].
Proof.
  unfold aborts_without_rewrite.
  replace (map_onto_device line3_and_one [CX 0 2; CX 0 3])
    with (<[0 := 1]> (<[1 := 0]> (<[2 := 2]> ({[3 := 3]} : gmap Z Z))),
          [CX 0 1; CX 1 0; CX 0 1; CX 1 2; CX 1 3],
          [OStr "Error: could not find a connection between qubits ";
           OInt 1; OStr " and "; OInt 3; OStr nl])
    by (vm_compute; reflexivity).
  intros H. discriminate H. discriminate.
Qed.

(** *** References outside the device *)

(** C8, amended — The mapper makes no range check on qubit references and
    raises no error.  A reference to the global register whose offset is a
    slot of the device is rewritten to the slot the permutation gives it
    and the permutation stays as it is; a reference whose offset is outside
    the device is rewritten too: [std::map::operator[]] adds the entry
    offset -> 0 to the permutation and the reference becomes [q[0]].  Nothing
    is written to the error stream. *)
Theorem out_of_range_reference (n : Z) (s : state) (va : VarAccess) :
  perm_ok n (permutation_ s) →
  var va = register_name →
  (0 ≤ offset va < n →
     ∃ v, permutation_ s !! offset va = Some v
          ∧ replace_VarAccess va s = (Some (mkVarAccess register_name v), s))
  ∧ (¬ (0 ≤ offset va < n) →
     replace_VarAccess va s
     = (Some (mkVarAccess register_name 0),
        mkState (<[offset va := 0]> (permutation_ s)) (cerr s))).
Proof.
  intros Hp Hv. unfold replace_VarAccess, perm_index, bind, get_perm, put_perm.
  rewrite Hv. simpl. split.
  - intros Hr. destruct (perm_dom _ _ Hp (offset va)) as [_ [v Hl]]; [done|].
    exists v. rewrite Hl. done.
  - intros Hr. destruct (permutation_ s !! offset va) as [v|] eqn:E.
    + exfalso. apply Hr. apply (perm_dom _ _ Hp). eauto.
    + reflexivity.
Qed.

Lemma out_of_range_reference_witness :
  perm_ok 3 (permutation_ (init line3))
  ∧ var (q 5) = register_name
  ∧ replace_VarAccess (q 5) (init line3)
    = (Some (q 0), mkState (<[5 := 0]> (permutation_ (init line3))) []).
Proof.
  split; [apply (init_permutation_ok 3)|]. split; [reflexivity|].
  destruct (out_of_range_reference 3 (init line3) (q 5)) as [_ H];
    [apply (init_permutation_ok 3) | reflexivity |].
  apply H. simpl. lia.
Defined.

(** C8, as stated, fails: on the three-qubit line the reference [q[5]] is
    rewritten to [q[0]]. *)
Lemma out_of_range_not_fatal : ¬ out_of_range_is_fatal line3 (q 5).
Proof.
  unfold out_of_range_is_fatal. intros H.
  assert (Hr : ¬ (0 ≤ offset (q 5) < qubits_ line3)) by (simpl; lia).
  specialize (H Hr). vm_compute in H. discriminate H.
Qed.

(** *** pystaq *)

(** C4, amended — Selector errors are reported, after the program has been
    inlined.  With an unknown layout name the program is left fully
    inlined; with a known layout name and an unknown mapper name it is left
    inlined and with the layout applied.  In both cases one error line is
    written, no mapper runs and no expression is evaluated. *)
Theorem selector_error_program (tc : pystaq.collaborators)
    (layout_name mapper : string) (evaluate_all : bool) (device_json : string)
    (prog : Program) (cerr : list Out) :
  known layout_names layout_name && known mapper_names mapper = false →
  let inlined :=
    pystaq.inline_ast tc prog (pystaq.mk_inline_config false [] "anc") in
  let dev := pystaq.physical_device tc device_json inlined in
  pystaq.map tc layout_name mapper evaluate_all device_json (prog, cerr)
  = match pystaq.initial_layout tc layout_name dev inlined with
    | None =>
        (inlined, cerr ++ [OStr ("Error: invalid layout algorithm" ++ nl)])
    | Some l =>
        (pystaq.apply_layout tc l dev inlined,
         cerr ++ [OStr ("Error: invalid mapping algorithm" ++ nl)])
    end
  ∧ (pystaq.initial_layout tc layout_name dev inlined = None
     ↔ known layout_names layout_name = false).
Proof.
  intros Hsel. cbv zeta. unfold pystaq.map.
  assert (Hl : pystaq.initial_layout tc layout_name
                 (pystaq.physical_device tc device_json
                    (pystaq.inline_ast tc prog
                       (pystaq.mk_inline_config false [] "anc")))
                 (pystaq.inline_ast tc prog
                    (pystaq.mk_inline_config false [] "anc")) = None
               ↔ known layout_names layout_name = false).
  { unfold pystaq.initial_layout, known, layout_names. simpl.
    destruct (String.eqb layout_name "linear"); [done|].
    destruct (String.eqb layout_name "eager"); [done|].
    destruct (String.eqb layout_name "bestfit"); done. }
  split; [|exact Hl].
  destruct (pystaq.initial_layout tc layout_name _ _) as [l|] eqn:El.
  - assert (Hk : known layout_names layout_name = true).
    { destruct (known layout_names layout_name); [done|].
      by destruct Hl as [_ Hl]; specialize (Hl eq_refl). }
    rewrite Hk in Hsel. simpl in Hsel.
    unfold known, mapper_names in Hsel. simpl in Hsel.
    destruct (String.eqb mapper "swap"); [done|].
    destruct (String.eqb mapper "steiner"); [done|]. reflexivity.
  - reflexivity.
Qed.

Lemma selector_error_program_witness :
  known layout_names "linear" && known mapper_names "sabre" = false
  ∧ pystaq.map declarations_cleared "linear" "sabre" false EmptyString
      ([GateDecl "g" []; RegisterDecl "q" true 1], [])
    = ([RegisterDecl "q" true 1],
       [OStr ("Error: invalid mapping algorithm" ++ nl)]).
Proof.
  split; [reflexivity|].
  destruct (selector_error_program declarations_cleared "linear" "sabre" false
              EmptyString [GateDecl "g" []; RegisterDecl "q" true 1] [])
    as [H _]; [reflexivity|].
  etransitivity; [exact H | reflexivity].
Defined.

(** C4, as stated, fails: with the unknown layout name [sabre], a program
    that holds a gate declaration has lost it after the call. *)
Lemma selector_error_changes_program :
  ¬ selector_error_keeps_program declarations_cleared "sabre" "swap" false
      EmptyString [GateDecl "g" []; RegisterDecl "q" true 1].
Proof.
  unfold selector_error_keeps_program. intros H.
  specialize (H eq_refl). vm_compute in H. destruct H as [_ H]. discriminate H.
Qed.

(** C9, amended — [add_edge] with a qubit index outside the device writes
    the error and changes nothing.  With both indices inside the device and
    a fidelity outside [0, 1], the two-qubit fidelities stay as they were
    and the fidelity error is written (when the fidelity differs from
    [FIDELITY_1]), but the edge has been added to the adjacency matrix. *)
Theorem add_edge_rejected (FIDELITY_1 : float) (control target : Z)
    (directed : bool) (fidelity : float) (d : pystaq.Device) (cerr : list Out) :
  index_out_of_range d control target || fidelity_out_of_range fidelity = true →
  let '(d', cerr') :=
    pystaq.add_edge FIDELITY_1 control target directed fidelity (d, cerr) in
  pystaq.n_ d' = pystaq.n_ d
  ∧ pystaq.sq_fi_ d' = pystaq.sq_fi_ d
  ∧ pystaq.tq_fi_ d' = pystaq.tq_fi_ d
  ∧ (index_out_of_range d control target = true →
       pystaq.adj_ d' = pystaq.adj_ d
       ∧ cerr' = cerr ++ [OStr "Qubit(s) out of range: "; OInt control;
                          OStr ","; OInt target; OStr nl])
  ∧ (index_out_of_range d control target = false →
       pystaq.adj_ d'
       = (let adj := pystaq.set2 (pystaq.adj_ d) control target true in
          if directed then adj else pystaq.set2 adj target control true)
       ∧ cerr' = if PrimFloat.eqb fidelity FIDELITY_1 then cerr
                 else cerr ++ [OStr "Fidelity out of range: ";
                               ODouble fidelity; OStr nl]).
Proof.
  unfold pystaq.add_edge, index_out_of_range, fidelity_out_of_range.
  intros H.
  destruct ((control <? 0) || (control >=? pystaq.n_ d)
            || (target <? 0) || (target >=? pystaq.n_ d)) eqn:Ei.
  - destruct d. simpl. split_and!; try done.
  - simpl in H. rewrite H.
    destruct (PrimFloat.eqb fidelity FIDELITY_1); simpl;
      split_and!; try done; intros _; by destruct directed.
Qed.

Lemma two_qubits_new : pystaq.new fidelity_099 2 = Some two_qubits.
Proof. reflexivity. Qed.

Lemma add_edge_rejected_witness :
  index_out_of_range two_qubits 0 1 || fidelity_out_of_range 1.5 = true
  ∧ pystaq.add_edge fidelity_099 0 1 false 1.5 (two_qubits, [])
    = (pystaq.mkDevice 2 (pystaq.sq_fi_ two_qubits)
         [[false; true]; [true; false]] (pystaq.tq_fi_ two_qubits),
       [OStr "Fidelity out of range: "; ODouble 1.5; OStr nl]).
Proof.
  split; [vm_compute; reflexivity|].
  pose proof (add_edge_rejected fidelity_099 0 1 false 1.5 two_qubits []) as H.
  destruct (pystaq.add_edge _ _ _ _ _ _) as [d' cerr'].
  destruct H as (Hn & Hs & Ht & _ & H); [vm_compute; reflexivity|].
  destruct H as [Ha He]; [vm_compute; reflexivity|].
  destruct d'. simpl in *. subst. vm_compute. reflexivity.
Defined.

(** C9, as stated, fails: on a two-qubit device, [add_edge(0, 1, false,
    1.5)] reports the fidelity and leaves the fidelities alone, but the
    edge between 0 and 1 is in the adjacency matrix after the call. *)
Lemma add_edge_not_ignored :
  index_out_of_range two_qubits 0 1 || fidelity_out_of_range 1.5 = true
  ∧ ¬ add_edge_ignored fidelity_099 0 1 false 1.5 two_qubits.
Proof.
  split; [vm_compute; reflexivity|].
  unfold add_edge_ignored. vm_compute. intros (_ & H & _). discriminate H.
Qed.

(** *** Unitary semantics *)

Lemma C_ring : ring_theory C0 C1 Cadd Cmul Csub Copp eq.
Proof.
  constructor; intros; repeat match goal with x : C |- _ => destruct x end;
    unfold Cadd, Cmul, Csub, Copp, C0, C1; simpl; f_equal; ring.
Qed.

Add Ring C_ring_inst : C_ring.

Lemma Cnorm2_mul a b : Cnorm2 (Cmul a b) = (Cnorm2 a * Cnorm2 b)%R.
Proof. destruct a, b. unfold Cnorm2, Cmul. simpl. ring. Qed.

Lemma Cnorm2_exp t : Cnorm2 (Cexp t) = 1%R.
Proof.
  unfold Cnorm2, Cexp. simpl. pose proof (sin2_cos2 t) as H.
  unfold Rsqr in H. rewrite <- H. ring.
Qed.

Lemma Cnorm2_1 : Cnorm2 C1 = 1%R.
Proof. unfold Cnorm2, C1. simpl. ring. Qed.

(** Basis states *)
Lemma upd_same x k b : upd x k b k = b.
Proof. unfold upd. by rewrite Z.eqb_refl. Qed.

Lemma upd_other x k b k' : k' ≠ k → upd x k b k' = x k'.
Proof. unfold upd. intros H. apply Z.eqb_neq in H. by rewrite H. Qed.

Lemma upd_id x k : upd x k (x k) = x.
Proof.
  apply functional_extensionality. intros k'. unfold upd.
  destruct (Z.eqb_spec k' k); congruence.
Qed.

Lemma upd_upd x k a b : upd (upd x k a) k b = upd x k b.
Proof.
  apply functional_extensionality. intros k'. unfold upd.
  by destruct (k' =? k).
Qed.

Lemma upd_comm x k1 k2 a b :
  k1 ≠ k2 → upd (upd x k1 a) k2 b = upd (upd x k2 b) k1 a.
Proof.
  intros H. apply functional_extensionality. intros k'. unfold upd.
  destruct (Z.eqb_spec k' k1), (Z.eqb_spec k' k2); congruence.
Qed.

Lemma upd_permute x sigma k b :
  (∀ k1 k2, sigma k1 = sigma k2 → k1 = k2) →
  (λ k', upd x (sigma k) b (sigma k')) = upd (λ k', x (sigma k')) k b.
Proof.
  intros Hinj. apply functional_extensionality. intros k'. unfold upd.
  destruct (Z.eqb_spec (sigma k') (sigma k)) as [E|E], (Z.eqb_spec k' k) as [E'|E'];
    try done.
  - apply Hinj in E. done.
  - subst. done.
Qed.

(** Gates and relabelling *)
Lemma apply1_permute m sigma k psi :
  (∀ k1 k2, sigma k1 = sigma k2 → k1 = k2) →
  apply1 m (sigma k) (permute sigma psi) = permute sigma (apply1 m k psi).
Proof.
  intros Hinj. apply functional_extensionality. intros x.
  unfold apply1, permute. by rewrite !upd_permute.
Qed.

Lemma cnot_permute sigma c t psi :
  (∀ k1 k2, sigma k1 = sigma k2 → k1 = k2) →
  cnot (sigma c) (sigma t) (permute sigma psi) = permute sigma (cnot c t psi).
Proof.
  intros Hinj. apply functional_extensionality. intros x.
  unfold cnot, permute. by rewrite upd_permute.
Qed.

Lemma permute_permute s1 s2 psi :
  permute s1 (permute s2 psi) = permute (λ k, s1 (s2 k)) psi.
Proof. reflexivity. Qed.

Lemma permute_id psi : permute (λ k, k) psi = psi.
Proof. reflexivity. Qed.

Ltac upd_simpl :=
  repeat first [rewrite upd_same | rewrite upd_other by congruence].

Lemma three_cnots a b psi :
  a ≠ b → cnot a b (cnot b a (cnot a b psi)) = permute (transpose a b) psi.
Proof.
  intros Hab. apply functional_extensionality. intros x.
  unfold cnot, permute. f_equal.
  apply functional_extensionality. intros k.
  unfold transpose.
  destruct (Z.eqb_spec k a) as [Ha|Ha]; [|destruct (Z.eqb_spec k b) as [Hb|Hb]];
    subst; upd_simpl; try reflexivity.
  - destruct (x a), (x b); reflexivity.
  - destruct (x a), (x b); reflexivity.
Qed.

(** Scaling *)
Lemma apply1_scale m k c psi :
  apply1 m k (scale c psi) = scale c (apply1 m k psi).
Proof.
  apply functional_extensionality. intros x. unfold apply1, scale. ring.
Qed.

Lemma cnot_scale a b c psi : cnot a b (scale c psi) = scale c (cnot a b psi).
Proof. reflexivity. Qed.

Lemma permute_scale sigma c psi :
  permute sigma (scale c psi) = scale c (permute sigma psi).
Proof. reflexivity. Qed.

Lemma scale_scale c1 c2 psi : scale c1 (scale c2 psi) = scale (Cmul c1 c2) psi.
Proof.
  apply functional_extensionality. intros x. unfold scale. ring.
Qed.

Lemma scale_1 psi : scale C1 psi = psi.
Proof.
  apply functional_extensionality. intros x. unfold scale. ring.
Qed.

Lemma half_plus_half :
  Cadd (Cmul (RtoC (1 / sqrt 2)) (RtoC (1 / sqrt 2)))
       (Cmul (RtoC (1 / sqrt 2)) (RtoC (1 / sqrt 2))) = C1.
Proof.
  unfold Cadd, Cmul, RtoC, C1. simpl. f_equal; [|ring].
  assert (H : (sqrt 2 * sqrt 2 = 2)%R) by (apply sqrt_sqrt; lra).
  assert (H0 : (sqrt 2 ≠ 0)%R).
  { intros E. rewrite E in H. lra. }
  field_simplify; [|done]. replace (sqrt 2 ^ 2)%R with 2%R by (simpl; lra).
  lra.
Qed.

Lemma RtoC_opp r : RtoC (- r) = Copp (RtoC r).
Proof. unfold RtoC, Copp. simpl. f_equal. ring. Qed.

Lemma U_matrix_hadamard g :
  U_matrix g (PI / 2) 0 PI = hadamard (Cexp g).
Proof.
  apply functional_extensionality. intros row.
  apply functional_extensionality. intros col.
  unfold U_matrix, hadamard. f_equal.
  replace (PI / 2 / 2)%R with (PI / 4)%R by field.
  rewrite cos_PI4, sin_PI4.
  unfold Cexp. rewrite Rplus_0_l, cos_0, sin_0, cos_PI, sin_PI.
  destruct row, col; unfold Cmul, Copp, RtoC; simpl; f_equal; ring.
Qed.

Lemma hadamard_twice kappa k psi :
  apply1 (hadamard kappa) k (apply1 (hadamard kappa) k psi)
  = scale (Cmul kappa kappa) psi.
Proof.
  apply functional_extensionality. intros x.
  unfold apply1, scale, hadamard. upd_simpl. rewrite !upd_upd.
  assert (Hx : psi x = psi (upd x k (x k))) by (by rewrite upd_id).
  rewrite Hx. clear Hx.
  set (h := RtoC (1 / sqrt 2)).
  destruct (x k); simpl; rewrite ?RtoC_opp; fold h.
  - transitivity (Cmul (Cadd (Cmul h h) (Cmul h h))
                    (Cmul (Cmul kappa kappa) (psi (upd x k true)))); [ring|].
    unfold h. rewrite half_plus_half. ring.
  - transitivity (Cmul (Cadd (Cmul h h) (Cmul h h))
                    (Cmul (Cmul kappa kappa) (psi (upd x k false)))); [ring|].
    unfold h. rewrite half_plus_half. ring.
Qed.

Lemma apply1_comm m1 m2 k1 k2 psi :
  k1 ≠ k2 →
  apply1 m1 k1 (apply1 m2 k2 psi) = apply1 m2 k2 (apply1 m1 k1 psi).
Proof.
  intros H. apply functional_extensionality. intros x.
  unfold apply1. upd_simpl.
  rewrite !(upd_comm x k2 k1) by congruence. ring.
Qed.

Lemma upd_upd_upd x c t a b a' :
  c ≠ t → upd (upd (upd x c a) t b) c a' = upd (upd x c a') t b.
Proof.
  intros H. rewrite (upd_comm (upd x c a) t c), upd_upd by congruence. done.
Qed.

Lemma upd_upd_upd' x c t v a b :
  c ≠ t → upd (upd (upd x t v) c a) t b = upd (upd x c a) t b.
Proof.
  intros H. rewrite (upd_comm (upd x t v) c t), upd_upd by congruence.
  by rewrite (upd_comm x t c) by congruence.
Qed.

Lemma hadamard_cnot kappa c t psi :
  c ≠ t →
  apply1 (hadamard kappa) c (apply1 (hadamard kappa) t (cnot t c psi))
  = cnot c t (apply1 (hadamard kappa) c (apply1 (hadamard kappa) t psi)).
Proof.
  intros H. apply functional_extensionality. intros x.
  unfold apply1, cnot, hadamard. upd_simpl.
  rewrite !(upd_upd_upd _ c t), !(upd_upd_upd' _ c t) by done.
  destruct (x c), (x t); simpl; rewrite ?RtoC_opp; ring.
Qed.

(** *** The permutation as a relabelling *)

Lemma perm_fun_lookup p k v : p !! k = Some v → perm_fun p k = v.
Proof. unfold perm_fun. by intros ->. Qed.

Lemma perm_fun_outside n p k : perm_ok n p → ¬ (0 ≤ k < n) → perm_fun p k = k.
Proof.
  intros Hp Hk. unfold perm_fun. destruct (p !! k) eqn:E; [|done].
  exfalso. apply Hk, (perm_dom _ _ Hp). eauto.
Qed.

Lemma perm_fun_range n p k : perm_ok n p → 0 ≤ k < n → 0 ≤ perm_fun p k < n.
Proof.
  intros Hp Hk. destruct (perm_dom _ _ Hp k) as [_ [v Hv]]; [done|].
  rewrite (perm_fun_lookup _ _ _ Hv). by eapply perm_range.
Qed.

Lemma perm_fun_inj n p k1 k2 :
  perm_ok n p → perm_fun p k1 = perm_fun p k2 → k1 = k2.
Proof.
  intros Hp. unfold perm_fun.
  destruct (p !! k1) as [v1|] eqn:E1, (p !! k2) as [v2|] eqn:E2; simpl.
  - intros ->. by eapply perm_inj.
  - intros ->. apply (perm_range _ _ Hp) in E1.
    exfalso. assert (is_Some (p !! k2)) as [? ?] by (by apply (perm_dom _ _ Hp)).
    congruence.
  - intros <-. apply (perm_range _ _ Hp) in E2.
    exfalso. assert (is_Some (p !! k1)) as [? ?] by (by apply (perm_dom _ _ Hp)).
    congruence.
  - done.
Qed.

Lemma perm_fun_adjust n p i j k :
  perm_ok n p → 0 ≤ i < n → 0 ≤ j < n →
  perm_fun (adjust_permutation i j p) k = transpose i j (perm_fun p k).
Proof.
  intros Hp Hi Hj. unfold perm_fun. rewrite adjust_permutation_lookup.
  destruct (p !! k) as [v|] eqn:E; simpl; [done|].
  assert (Hk : ¬ (0 ≤ k < n)).
  { intros Hk. apply (perm_dom _ _ Hp) in Hk as [? ?]. congruence. }
  unfold transpose.
  destruct (Z.eqb_spec k i); [lia|]. destruct (Z.eqb_spec k j); [lia|]. done.
Qed.

Lemma perm_fun_init n k : perm_fun (init_permutation n) k = k.
Proof.
  unfold perm_fun. rewrite init_permutation_lookup.
  by destruct (decide (0 ≤ k < n)).
Qed.

Lemma inverse_permutation_lookup n p v k :
  perm_ok n p → inverse_permutation p !! v = Some k ↔ p !! k = Some v.
Proof.
  intros Hp. unfold inverse_permutation.
  rewrite <- elem_of_list_to_map.
  - rewrite list_elem_of_fmap. split.
    + intros ([k' v'] & [= -> ->] & H). by apply elem_of_map_to_list in H.
    + intros H. exists (k, v). split; [done|]. by apply elem_of_map_to_list.
  - rewrite <- list_fmap_compose.
    apply NoDup_fmap_2_strong; [|apply NoDup_map_to_list].
    intros [k1 v1] [k2 v2] H1%elem_of_map_to_list H2%elem_of_map_to_list.
    simpl. intros ->. f_equal. by eapply perm_inj.
Qed.

Lemma inverse_permutation_cancel n p k :
  perm_ok n p → perm_fun (inverse_permutation p) (perm_fun p k) = k.
Proof.
  intros Hp. destruct (p !! k) as [v|] eqn:E.
  - rewrite (perm_fun_lookup _ _ _ E).
    apply perm_fun_lookup. by apply (inverse_permutation_lookup n p v k Hp).
  - unfold perm_fun at 2. rewrite E. simpl.
    unfold perm_fun. destruct (inverse_permutation p !! k) as [k'|] eqn:E'; [|done].
    apply (proj1 (inverse_permutation_lookup n p k k' Hp)) in E'.
    apply (perm_range _ _ Hp) in E'.
    assert (is_Some (p !! k)) as [? ?] by (by apply (perm_dom _ _ Hp)).
    congruence.
Qed.

(** *** Gate lists *)

Lemma unit_phase_1 : unit_phase C1.
Proof. apply Cnorm2_1. Qed.

Lemma unit_phase_mul a b : unit_phase a → unit_phase b → unit_phase (Cmul a b).
Proof. unfold unit_phase. intros Ha Hb. rewrite Cnorm2_mul, Ha, Hb. ring. Qed.

Lemma unit_phase_exp t : unit_phase (Cexp t).
Proof. apply Cnorm2_exp. Qed.

Lemma transpose_sym i j k : transpose i j k = transpose j i k.
Proof.
  unfold transpose.
  destruct (Z.eqb_spec k i), (Z.eqb_spec k j); congruence.
Qed.

Section Semantics.
Variable gphase : R → R → R → R.
Let kappa : C := Cexp (gphase (PI / 2) 0 PI).

Lemma gate_sem_hadamard i :
  gate_sem gphase (generate_hadamard i) = apply1 (hadamard kappa) i.
Proof.
  unfold generate_hadamard, gate_sem. simpl.
  by rewrite U_matrix_hadamard.
Qed.

Lemma gate_sem_scale g c psi :
  gate_sem gphase g (scale c psi) = scale c (gate_sem gphase g psi).
Proof. destruct g; simpl; [apply apply1_scale | done | done | done]. Qed.

Lemma gates_sem_scale gs : ∀ c psi,
  gates_sem gphase gs (scale c psi) = scale c (gates_sem gphase gs psi).
Proof.
  induction gs as [|g gs IH]; intros c psi; simpl; [done|].
  by rewrite gate_sem_scale, IH.
Qed.

Lemma gates_sem_app gs1 gs2 psi :
  gates_sem gphase (gs1 ++ gs2) psi
  = gates_sem gphase gs2 (gates_sem gphase gs1 psi).
Proof. unfold gates_sem. apply foldl_app. Qed.

Lemma swapped_cnot_sem i j psi :
  i ≠ j →
  gates_sem gphase (generate_swapped_cnot i j) psi
  = scale (Cmul (Cmul kappa kappa) (Cmul kappa kappa)) (cnot i j psi).
Proof.
  intros H. unfold generate_swapped_cnot, gates_sem. cbn [foldl].
  rewrite !gate_sem_hadamard. cbn [gate_sem generate_cnot offset].
  rewrite (apply1_comm _ _ j i) by congruence.
  rewrite hadamard_cnot by done.
  rewrite hadamard_twice, apply1_scale, hadamard_twice, scale_scale.
  by rewrite cnot_scale.
Qed.

Lemma final_cnot_sem d i j :
  i ≠ j →
  ∃ c, unit_phase c
       ∧ ∀ psi, gates_sem gphase (final_cnot d i j) psi = scale c (cnot i j psi).
Proof.
  intros H. unfold final_cnot. destruct (coupled d i j).
  - exists C1. split; [apply unit_phase_1|]. intros psi. by rewrite scale_1.
  - eexists. split; [|intros psi; by apply swapped_cnot_sem].
    repeat apply unit_phase_mul; apply unit_phase_exp.
Qed.

Lemma swap_gates_sem d i j :
  i ≠ j →
  ∃ c, unit_phase c
       ∧ ∀ psi, gates_sem gphase (swap_gates d i j) psi
                = scale c (permute (transpose i j) psi).
Proof.
  intros H. unfold swap_gates.
  assert (Hgen : ∀ a b, a ≠ b →
    ∃ c, unit_phase c
         ∧ ∀ psi, gates_sem gphase
                    ([generate_cnot a b]
                     ++ (if coupled d b a then [generate_cnot b a]
                         else generate_swapped_cnot b a)
                     ++ [generate_cnot a b]) psi
                  = scale c (permute (transpose a b) psi)).
  { intros a b Hab. destruct (coupled d b a).
    - exists C1. split; [apply unit_phase_1|]. intros psi.
      rewrite scale_1. simpl. by apply three_cnots.
    - eexists. split; [|intros psi].
      2:{ rewrite !gates_sem_app, swapped_cnot_sem by congruence.
          simpl. rewrite cnot_scale, three_cnots by done. reflexivity. }
      repeat apply unit_phase_mul; apply unit_phase_exp. }
  destruct (coupled d i j) eqn:E; cbn [negb].
  - by apply Hgen.
  - destruct (Hgen j i) as (c & Hc & Hs); [congruence|].
    exists c. split; [done|]. intros psi. rewrite Hs. f_equal. f_equal.
    apply functional_extensionality. intros k. apply transpose_sym.
Qed.

End Semantics.

Lemma qubit_ok_ref_ok n va : qubit_ok n va = true → ref_ok n va = true.
Proof.
  unfold qubit_ok, ref_ok. intros [_ ->]%andb_true_iff. apply orb_true_r.
Qed.

Lemma unitary_gate_ok_gate_ok n g : unitary_gate_ok n g = true → gate_ok n g = true.
Proof.
  destruct g; simpl; try done.
  - apply qubit_ok_ref_ok.
  - intros [H _]%andb_true_iff. done.
Qed.

Lemma unitary_stmt_ok_stmt_ok n s : unitary_stmt_ok n s = true → stmt_ok n s = true.
Proof. destruct s; simpl; try done. apply unitary_gate_ok_gate_ok. Qed.

Lemma unitary_program_ok n prog :
  unitary_program n prog = true → program_ok n prog = true.
Proof.
  unfold unitary_program, program_ok. rewrite !forallb_forall.
  intros H s Hs. by apply unitary_stmt_ok_stmt_ok, H.
Qed.

Section Equivalence.
Variable gphase : R → R → R → R.
Variable d : Device.
Hypothesis d_wf : Device_wf d = true.
Let n := qubits_ d.

Lemma swap_chain_sem chain : ∀ tgt i s gs s',
  i ≠ tgt → tgt ∈ chain → forallb (in_range n) chain = true →
  0 ≤ i < n → 0 ≤ tgt < n →
  perm_ok n (permutation_ s) →
  swap_chain d tgt i chain s = (gs, s') →
  ∃ c, unit_phase c ∧ ∀ cL tL phi,
    perm_fun (permutation_ s) cL = i → perm_fun (permutation_ s) tL = tgt →
    gates_sem gphase gs (permute (perm_fun (permutation_ s)) phi)
    = scale c (permute (perm_fun (permutation_ s')) (cnot cL tL phi)).
Proof.
  induction chain as [|j rest IH]; intros tgt i s gs s' Hit Hin Hr Hi Ht Hp.
  { by apply elem_of_nil in Hin. }
  simpl in Hr. apply andb_true_iff in Hr as [Hj Hr]. apply in_range_spec in Hj.
  simpl. destruct (Z.eqb_spec j tgt) as [->|Hjt].
  - intros [= <- <-].
    destruct (final_cnot_sem gphase d i tgt Hit) as (c & Hc & Hs).
    exists c. split; [done|]. intros cL tL phi <- <-.
    rewrite Hs. f_equal. apply cnot_permute.
    intros k1 k2. by apply (perm_fun_inj n).
  - assert (Hin' : tgt ∈ rest).
    { apply elem_of_cons in Hin as [->|]; done. }
    destruct (Z.eqb_spec j i) as [->|Hji]; simpl.
    + by apply IH.
    + unfold bind, get_perm, put_perm. simpl.
      destruct (swap_chain d tgt j rest _) as [more s1] eqn:Em.
      intros [= <- <-].
      apply IH in Em as (c2 & Hc2 & Hs2); simpl; try done;
        [|by apply adjust_permutation_ok].
      simpl in Hs2.
      destruct (swap_gates_sem gphase d i j) as (c1 & Hc1 & Hs1); [congruence|].
      exists (Cmul c1 c2). split; [by apply unit_phase_mul|].
      intros cL tL phi HcL HtL.
      rewrite gates_sem_app, Hs1, gates_sem_scale, permute_permute.
      assert (Hfun : (λ k, transpose i j (perm_fun (permutation_ s) k))
                     = perm_fun (adjust_permutation i j (permutation_ s))).
      { apply functional_extensionality. intros k.
        symmetry. by apply (perm_fun_adjust n). }
      rewrite Hfun, (Hs2 cL tL), scale_scale; [done| |].
      * rewrite <- Hfun, HcL. unfold transpose. by rewrite Z.eqb_refl.
      * rewrite <- Hfun, HtL. unfold transpose.
        destruct (Z.eqb_spec tgt i); [congruence|].
        destruct (Z.eqb_spec tgt j); [congruence|]. done.
Qed.

Lemma visit_Gate_sem g s gs s' :
  unitary_gate_ok n g = true → perm_ok n (permutation_ s) →
  visit_Gate d g s = (gs, s') → cerr s' = cerr s →
  ∃ c, unit_phase c ∧ ∀ phi,
    gates_sem gphase gs (permute (perm_fun (permutation_ s)) phi)
    = scale c (permute (perm_fun (permutation_ s')) (gate_sem gphase g phi)).
Proof.
  intros Hg Hp.
  assert (Hinj : ∀ k1 k2, perm_fun (permutation_ s) k1 = perm_fun (permutation_ s) k2
                          → k1 = k2).
  { intros k1 k2. by apply (perm_fun_inj n). }
  destruct g as [th ph la arg|c t|args|name cs qs]; simpl in *.
  - destruct (visit_VarAccess_qubit d _ s Hg Hp) as (v & Hv & Hl & _).
    unfold bind. rewrite Hv. intros [= <- <-] _.
    exists C1. split; [apply unit_phase_1|]. intros phi. rewrite scale_1.
    simpl. rewrite <- (perm_fun_lookup _ _ _ Hl). by apply apply1_permute.
  - apply andb_true_iff in Hg as [Hg Hne]. apply andb_true_iff in Hg as [Hc Ht].
    apply negb_true_iff, Z.eqb_neq in Hne.
    destruct (visit_VarAccess_qubit d _ s Hc Hp) as (vc & Hvc & Hlc & Hrc).
    destruct (visit_VarAccess_qubit d _ s Ht Hp) as (vt & Hvt & Hlt & Hrt).
    unfold bind. rewrite Hvc, Hvt.
    apply perm_fun_lookup in Hlc, Hlt.
    assert (Hvne : vc ≠ vt).
    { intros E. apply Hne, Hinj. congruence. }
    pose proof (Device_wf_path d vc vt d_wf Hrc Hrt) as Hok.
    unfold path_ok in Hok.
    apply andb_true_iff in Hok as [Hok Hlast].
    apply andb_true_iff in Hok as [_ Hrange].
    destruct (shortest_path d vc vt) as [|j rest] eqn:E.
    + rewrite replace_CNOTGate_empty by done. simpl.
      intros [= <- <-]. simpl. intros Herr.
      apply (f_equal length) in Herr. rewrite length_app in Herr.
      simpl in Herr. lia.
    + rewrite replace_CNOTGate_path by (simpl; rewrite E; done).
      simpl. rewrite E.
      destruct (swap_chain d vt vc (j :: rest) s) as [gs1 s1] eqn:Es.
      intros [= <- <-] _. simpl.
      destruct (last (j :: rest)) as [e|] eqn:El; [|by apply last_None in El].
      apply Z.eqb_eq in Hlast. subst e.
      apply last_Some in El as [l' El].
      eapply swap_chain_sem in Es as (c0 & Hc0 & Hs0); try done.
      * exists c0. split; [done|]. intros phi. by apply Hs0.
      * rewrite El. apply elem_of_app. right. by apply list_elem_of_singleton.
  - destruct (visit_VarAccesses_ref d _ s Hg Hp) as (vas' & Hv).
    unfold bind. rewrite Hv. intros [= <- <-] _.
    exists C1. split; [apply unit_phase_1|]. intros phi. by rewrite scale_1.
  - done.
Qed.

Lemma program_sem_gates gs psi :
  program_sem gphase (GateStmt <$> gs) psi = gates_sem gphase gs psi.
Proof.
  revert psi. induction gs as [|g gs IH]; intros psi; simpl; [done|]. apply IH.
Qed.

Lemma program_sem_app p1 p2 psi :
  program_sem gphase (p1 ++ p2) psi
  = program_sem gphase p2 (program_sem gphase p1 psi).
Proof. unfold program_sem. apply foldl_app. Qed.

Lemma program_sem_scale prog : ∀ c psi,
  program_sem gphase prog (scale c psi) = scale c (program_sem gphase prog psi).
Proof.
  induction prog as [|st prog IH]; intros c psi; simpl; [done|].
  destruct st; simpl; try apply IH.
  rewrite gate_sem_scale. apply IH.
Qed.

Lemma visit_Stmt_sem st s sts s' :
  unitary_stmt_ok n st = true → perm_ok n (permutation_ s) →
  visit_Stmt d st s = (sts, s') → cerr s' = cerr s →
  ∃ c, unit_phase c ∧ ∀ phi,
    program_sem gphase sts (permute (perm_fun (permutation_ s)) phi)
    = scale c (permute (perm_fun (permutation_ s')) (stmt_sem gphase st phi)).
Proof.
  intros Hst Hp. destruct st as [g|a c|a| | |]; simpl in *; try done.
  - unfold bind. destruct (visit_Gate d g s) as [gs s1] eqn:Eg.
    intros [= <- <-] Herr.
    destruct (visit_Gate_sem _ _ _ _ Hst Hp Eg Herr) as (c & Hc & Hs).
    exists c. split; [done|]. intros phi. by rewrite program_sem_gates.
  - intros [= <- <-] _. exists C1. split; [apply unit_phase_1|].
    intros phi. by rewrite scale_1.
  - intros [= <- <-] _. exists C1. split; [apply unit_phase_1|].
    intros phi. by rewrite scale_1.
  - intros [= <- <-] _. exists C1. split; [apply unit_phase_1|].
    intros phi. by rewrite scale_1.
Qed.

Lemma visit_Program_sem prog : ∀ s prog' s',
  unitary_program n prog = true → perm_ok n (permutation_ s) →
  visit_Program d prog s = (prog', s') → cerr s' = cerr s →
  ∃ c, unit_phase c ∧ ∀ phi,
    program_sem gphase prog' (permute (perm_fun (permutation_ s)) phi)
    = scale c (permute (perm_fun (permutation_ s')) (program_sem gphase prog phi)).
Proof.
  induction prog as [|st rest IH]; intros s prog' s' Hok Hp; simpl.
  - intros [= <- <-] _. exists C1. split; [apply unit_phase_1|].
    intros phi. by rewrite scale_1.
  - simpl in Hok. apply andb_true_iff in Hok as [Hst Hrest].
    unfold bind.
    destruct (visit_Stmt d st s) as [sts s1] eqn:Est.
    destruct (visit_Program d rest s1) as [rest' s2] eqn:Er.
    intros [= <- <-] Herr.
    pose proof Est as Est'. pose proof Er as Er'.
    apply (visit_Stmt_ok d d_wf) in Est' as (Hp1 & e1 & He1 & _);
      [|by apply unitary_stmt_ok_stmt_ok|done].
    apply (visit_Program_ok d d_wf) in Er' as (_ & e2 & He2 & _);
      [|by apply unitary_program_ok|done].
    assert (e1 = [] ∧ e2 = []) as [-> ->].
    { rewrite He2, He1, <- app_assoc in Herr.
      apply (f_equal length) in Herr. rewrite !length_app in Herr.
      split; apply length_zero_iff_nil; lia. }
    rewrite app_nil_r in He1, He2.
    destruct (visit_Stmt_sem _ _ _ _ Hst Hp Est He1) as (c1 & Hc1 & Hs1).
    destruct (IH _ _ _ Hrest Hp1 Er He2) as (c2 & Hc2 & Hs2).
    exists (Cmul c1 c2). split; [by apply unit_phase_mul|].
    intros phi.
    rewrite program_sem_app, Hs1, program_sem_scale, Hs2, scale_scale. done.
Qed.

End Equivalence.

(** C2 — Semantic equivalence.  For a device whose [shortest_path] keeps
    its contract and a unitary program on the global register, when mapping
    succeeds the unitary of the mapped program, followed by the relabelling
    of the qubits by the inverse of the returned permutation, is the
    unitary of the program up to an overall phase [c] of modulus 1,
    whatever the convention for the overall phase of [U]. *)
Theorem semantic_equivalence (gphase : R → R → R → R) (d : Device)
    (prog : Program) :
  Device_wf d = true →
  unitary_program (qubits_ d) prog = true →
  (map_onto_device d prog).2 = [] →
  ∃ c, Cnorm2 c = 1%R ∧ ∀ psi,
    permute (perm_fun (inverse_permutation (map_onto_device d prog).1.1))
      (program_sem gphase (map_onto_device d prog).1.2 psi)
    = scale c (program_sem gphase prog psi).
Proof.
  intros Hwf Hok. unfold map_onto_device, run, bind, get_perm, ret.
  destruct (visit_Program d prog (init d)) as [prog' s'] eqn:E. simpl.
  intros Herr.
  pose proof E as E'.
  apply (visit_Program_ok d Hwf) in E' as (Hp' & _);
    [|by apply unitary_program_ok|apply init_permutation_ok].
  apply (visit_Program_sem gphase d Hwf) in E as (c & Hc & Hs);
    [|done|apply init_permutation_ok|done].
  exists c. split; [done|]. intros psi.
  specialize (Hs psi). simpl in Hs.
  assert (H0 : permute (perm_fun (init_permutation (qubits_ d))) psi = psi).
  { apply functional_extensionality. intros x. unfold permute. f_equal.
    apply functional_extensionality. intros k. by rewrite perm_fun_init. }
  rewrite H0 in Hs. rewrite Hs, permute_scale, permute_permute. f_equal.
  apply functional_extensionality. intros x. unfold permute. f_equal.
  apply functional_extensionality. intros k.
  by rewrite (inverse_permutation_cancel (qubits_ d)).
Qed.

Lemma semantic_equivalence_witness :
  Device_wf line3 = true
  ∧ unitary_program (qubits_ line3) [CX 0 2] = true
  ∧ (map_onto_device line3 [CX 0 2]).2 = []
  ∧ ∃ c, Cnorm2 c = 1%R ∧ ∀ psi,
      permute (perm_fun (inverse_permutation (map_onto_device line3 [CX 0 2]).1.1))
        (program_sem (λ _ _ _, 0%R) (map_onto_device line3 [CX 0 2]).1.2 psi)
      = scale c (program_sem (λ _ _ _, 0%R) [CX 0 2] psi).
Proof.
  split; [vm_compute; reflexivity|].
  split; [vm_compute; reflexivity|].
  split; [vm_compute; reflexivity|].
  apply (semantic_equivalence (λ _ _ _, 0%R) line3 [CX 0 2]);
    vm_compute; reflexivity.
Defined.

(** * Further properties of the code *)

(** *** The swap mapper *)



(** Local programs *)









(** Entries off the path *)

Lemma swap_chain_off_path d chain : ∀ tgt i s k v,
  permutation_ s !! k = Some v → v ≠ i → v ∉ chain →
  permutation_ (swap_chain d tgt i chain s).2 !! k = Some v.
Proof.
  induction chain as [|j rest IH]; intros tgt i s k v Hk Hi Hc; simpl; [done|].
  apply not_elem_of_cons in Hc as [Hj Hc].
  destruct (j =? tgt); [done|].
  destruct (Z.eqb_spec j i) as [->|Hji]; simpl.
  - by apply IH.
  - unfold bind, get_perm, put_perm. simpl.
    specialize (IH tgt j (mkState (adjust_permutation i j (permutation_ s)) (cerr s))
                  k v).
    destruct (swap_chain d tgt j rest _) as [more s1]. simpl in *.
    apply IH; [|done|done].
    rewrite adjust_permutation_lookup, Hk. simpl. f_equal.
    unfold transpose.
    destruct (Z.eqb_spec v i); [done|]. destruct (Z.eqb_spec v j); done.
Qed.

(** X3 — Only qubits on the path are relocated.  An entry of the
    permutation whose slot is neither the control nor on the path of the
    gate is the same after [replace(CNOTGate&)]. *)
Theorem replace_keeps_entries_off_path (d : Device) (c t : VarAccess)
    (s : state) (k v : Z) :
  permutation_ s !! k = Some v →
  v ≠ offset c →
  v ∉ shortest_path d (offset c) (offset t) →
  permutation_ (replace_CNOTGate d c t s).2 !! k = Some v.
Proof.
  intros Hk Hc Hp. unfold replace_CNOTGate.
  destruct (shortest_path d (offset c) (offset t)) as [|j rest] eqn:E; [done|].
  unfold bind, ret.
  pose proof (swap_chain_off_path d (j :: rest) (offset t) (offset c) s k v
                Hk Hc Hp) as H.
  by destruct (swap_chain d (offset t) (offset c) (j :: rest) s).
Qed.

Lemma replace_keeps_entries_off_path_witness :
  permutation_ (init line3_and_one) !! 3 = Some 3
  ∧ 3 ≠ offset (q 0)
  ∧ (3 ∉ shortest_path line3_and_one (offset (q 0)) (offset (q 2)))
  ∧ permutation_ (replace_CNOTGate line3_and_one (q 0) (q 2) (init line3_and_one)).2
      !! 3 = Some 3.
Proof.
  assert (H3 : 3 ∉ shortest_path line3_and_one (offset (q 0)) (offset (q 2))).
  { vm_compute. intros H.
    repeat (apply elem_of_cons in H as [H|H]; [done|]).
    by apply elem_of_nil in H. }
  split; [vm_compute; reflexivity|]. split; [simpl; lia|]. split; [exact H3|].
  apply (replace_keeps_entries_off_path line3_and_one (q 0) (q 2)
           (init line3_and_one) 3 3); [vm_compute; reflexivity|simpl; lia|exact H3].
Defined.

(** Where control and target end up *)

Lemma swap_chain_track d l1 : ∀ tgt l2 i s gs s',
  i ≠ tgt → tgt ∉ l1 →
  swap_chain d tgt i (l1 ++ tgt :: l2) s = (gs, s') →
  cerr s' = cerr s
  ∧ (∀ k, permutation_ s !! k = Some tgt → permutation_ s' !! k = Some tgt)
  ∧ (∀ k, permutation_ s !! k = Some i
          → permutation_ s' !! k = Some (default i (last l1)))
  ∧ ∃ swaps, gs = swaps ++ final_cnot d (default i (last l1)) tgt.
Proof.
  induction l1 as [|j l1 IH]; intros tgt l2 i s gs s' Hit Hl1; simpl.
  - rewrite Z.eqb_refl. intros [= <- <-]. split_and!; try done. by exists [].
  - apply not_elem_of_cons in Hl1 as [Hj Hl1].
    destruct (Z.eqb_spec j tgt) as [|_]; [done|].
    assert (Hlast : default i (last (j :: l1)) = default j (last l1)).
    { destruct l1 as [|j' l1]; [done|]. rewrite last_cons.
      by destruct (last (j' :: l1)) eqn:E. }
    rewrite Hlast.
    destruct (Z.eqb_spec j i) as [->|Hji]; simpl.
    + intros E. by apply IH in E.
    + unfold bind, get_perm, put_perm. simpl.
      destruct (swap_chain d tgt j (l1 ++ tgt :: l2) _) as [more s1] eqn:Em.
      intros [= <- <-].
      apply IH in Em as (Hc & Ht & Hi & swaps & ->); [|done|done].
      simpl in *. split_and!; [done| | |].
      * intros k Hk. apply Ht. rewrite adjust_permutation_lookup, Hk. simpl.
        f_equal. unfold transpose.
        destruct (Z.eqb_spec tgt i); [done|]. destruct (Z.eqb_spec tgt j); done.
      * intros k Hk. apply Hi. rewrite adjust_permutation_lookup, Hk. simpl.
        f_equal. unfold transpose. by rewrite Z.eqb_refl.
      * exists (swap_gates d i j ++ swaps). by rewrite app_assoc.
Qed.

(** X4 — The control is moved, the target stays.  When the path reaches
    the target, [replace(CNOTGate&)] writes no error, leaves every entry at
    the target's slot where it is, moves every entry at the control's slot
    to the last slot of the path before the target, and ends the emitted
    gates with the CNOT from that slot to the target. *)
Theorem replace_moves_control_next_to_target (d : Device) (c t : VarAccess)
    (s : state) (l1 l2 : list Z) :
  offset c ≠ offset t →
  shortest_path d (offset c) (offset t) = l1 ++ offset t :: l2 →
  offset t ∉ l1 →
  let cursor := default (offset c) (last l1) in
  let '(r, s') := replace_CNOTGate d c t s in
  cerr s' = cerr s
  ∧ (∀ k, permutation_ s !! k = Some (offset t)
          → permutation_ s' !! k = Some (offset t))
  ∧ (∀ k, permutation_ s !! k = Some (offset c)
          → permutation_ s' !! k = Some cursor)
  ∧ ∃ swaps, r = Some (swaps ++ final_cnot d cursor (offset t)).
Proof.
  intros Hne Hp Hl1. cbv zeta.
  rewrite replace_CNOTGate_path by (rewrite Hp; by destruct l1).
  rewrite Hp.
  destruct (swap_chain d (offset t) (offset c) (l1 ++ offset t :: l2) s)
    as [gs s'] eqn:E.
  apply swap_chain_track in E as (Hc & Ht & Hi & swaps & ->); [|done|done].
  split_and!; try done. by exists swaps.
Qed.

Lemma replace_moves_control_next_to_target_witness :
  let '(r, s') := replace_CNOTGate line3 (q 0) (q 2) (init line3) in
  permutation_ s' !! 0 = Some 1 ∧ permutation_ s' !! 2 = Some 2.
Proof.
  pose proof (replace_moves_control_next_to_target line3 (q 0) (q 2)
                (init line3) [1] []) as H.
  cbv zeta in H.
  destruct (replace_CNOTGate line3 (q 0) (q 2) (init line3)) as [r s'].
  destruct H as (_ & Ht & Hc & _).
  - simpl. lia.
  - vm_compute. reflexivity.
  - intros H. apply list_elem_of_singleton in H. simpl in H. lia.
  - split; [apply (Hc 0) | apply (Ht 2)]; vm_compute; reflexivity.
Defined.

(** Size and shape of what is emitted *)

Lemma emitted_gate_ok_mono i i' chain chain' g :
  (∀ x, x = i ∨ x ∈ chain → x = i' ∨ x ∈ chain') →
  emitted_gate_ok i chain g → emitted_gate_ok i' chain' g.
Proof.
  intros Hsub [Hk Hq]. split; [done|].
  eapply Forall_impl; [exact Hq|]. intros va [Hv Ho]. split; [done|]. by apply Hsub.
Qed.

Lemma emitted_cnot_ok i chain a b :
  (a = i ∨ a ∈ chain) → (b = i ∨ b ∈ chain) →
  emitted_gate_ok i chain (generate_cnot a b).
Proof.
  intros Ha Hb. split; [left; eauto|]. simpl.
  repeat (apply Forall_cons; split; [split; [reflexivity|simpl; assumption]|]).
  by apply Forall_nil.
Qed.

Lemma emitted_hadamard_ok i chain a :
  (a = i ∨ a ∈ chain) → emitted_gate_ok i chain (generate_hadamard a).
Proof.
  intros Ha. split; [right; eauto|]. simpl.
  repeat (apply Forall_cons; split; [split; [reflexivity|simpl; assumption]|]).
  by apply Forall_nil.
Qed.

Lemma emitted_swapped_cnot_ok i chain a b :
  (a = i ∨ a ∈ chain) → (b = i ∨ b ∈ chain) →
  Forall (emitted_gate_ok i chain) (generate_swapped_cnot a b).
Proof.
  intros Ha Hb. unfold generate_swapped_cnot.
  repeat (apply Forall_cons; split;
          [first [by apply emitted_hadamard_ok | by apply emitted_cnot_ok]|]).
  by apply Forall_nil.
Qed.

Lemma final_cnot_emitted d i chain a b :
  (a = i ∨ a ∈ chain) → (b = i ∨ b ∈ chain) →
  Forall (emitted_gate_ok i chain) (final_cnot d a b)
  ∧ (length (final_cnot d a b) ≤ 5)%nat.
Proof.
  intros Ha Hb. unfold final_cnot. destruct (coupled d a b).
  - split; [|simpl; lia].
    apply Forall_cons; split; [by apply emitted_cnot_ok | by apply Forall_nil].
  - split; [|simpl; lia]. by apply emitted_swapped_cnot_ok.
Qed.

Lemma swap_gates_emitted d i chain a b :
  (a = i ∨ a ∈ chain) → (b = i ∨ b ∈ chain) →
  Forall (emitted_gate_ok i chain) (swap_gates d a b)
  ∧ (length (swap_gates d a b) ≤ 7)%nat.
Proof.
  intros Ha Hb. unfold swap_gates.
  destruct (negb (coupled d a b));
    match goal with |- context [coupled d ?x ?y] => destruct (coupled d x y) end;
    (split; [|simpl; lia]);
    repeat first [apply Forall_app; split | apply Forall_cons; split
                 | by apply Forall_nil
                 | by apply emitted_cnot_ok | by apply emitted_hadamard_ok
                 | by apply emitted_swapped_cnot_ok].
Qed.

Lemma swap_chain_emitted d chain : ∀ tgt i s,
  Forall (emitted_gate_ok i chain) (swap_chain d tgt i chain s).1
  ∧ (length (swap_chain d tgt i chain s).1 ≤ 7 * length chain)%nat.
Proof.
  induction chain as [|j rest IH]; intros tgt i s; simpl.
  - split; [constructor | lia].
  - destruct (j =? tgt).
    + simpl. destruct (final_cnot_emitted d i (j :: rest) i j) as [Hf Hl];
        [by left | right; by left |].
      split; [done | lia].
    + destruct (Z.eqb_spec j i) as [->|Hji]; simpl.
      * destruct (IH tgt i s) as [Hf Hl]. split; [|lia].
        eapply Forall_impl; [exact Hf|]. intros g.
        apply emitted_gate_ok_mono. intros x [->|Hx]; [by left|].
        right. by right.
      * unfold bind, get_perm, put_perm. simpl.
        specialize (IH tgt j (mkState (adjust_permutation i j (permutation_ s))
                                (cerr s))).
        destruct (swap_chain d tgt j rest _) as [more s1]. simpl in *.
        destruct IH as [Hf Hl].
        destruct (swap_gates_emitted d i (j :: rest) i j) as [Hsf Hsl];
          [by left | right; by left |].
        split.
        -- apply Forall_app. split; [done|].
           eapply Forall_impl; [exact Hf|]. intros g.
           apply emitted_gate_ok_mono. intros x [->|Hx]; right; [by left|by right].
        -- rewrite length_app. lia.
Qed.

(** X5 — What is emitted.  [replace(CNOTGate&)] returns [nullopt] only
    for an empty path; otherwise every emitted gate is a CNOT or a Hadamard
    [U] gate, on the register [q], acting on the control's slot or on slots
    of the path, and at most seven gates are emitted for every slot of the
    path. *)
Theorem replace_emits_on_path (d : Device) (c t : VarAccess) (s : state) :
  match (replace_CNOTGate d c t s).1 with
  | None => shortest_path d (offset c) (offset t) = []
  | Some gs =>
      Forall (λ g,
                ((∃ a b, g = generate_cnot a b) ∨ (∃ a, g = generate_hadamard a))
                ∧ Forall (λ va, var va = register_name
                                ∧ (offset va = offset c
                                   ∨ offset va ∈ shortest_path d (offset c) (offset t)))
                         (gate_qubits g)) gs
      ∧ (length gs ≤ 7 * length (shortest_path d (offset c) (offset t)))%nat
  end.
Proof.
  unfold replace_CNOTGate.
  destruct (shortest_path d (offset c) (offset t)) as [|j rest] eqn:E; [done|].
  unfold bind, ret.
  pose proof (swap_chain_emitted d (j :: rest) (offset t) (offset c) s) as H.
  by destruct (swap_chain d (offset t) (offset c) (j :: rest) s).
Qed.

(** X7 — The permutation update is an involution.  Exchanging the slots
    [i] and [j] twice gives the permutation back; the update is symmetric in
    [i] and [j], and exchanging a slot with itself changes nothing. *)
Theorem adjust_permutation_twice (i j : Z) (p : gmap Z Z) :
  adjust_permutation i j (adjust_permutation i j p) = p
  ∧ adjust_permutation j i p = adjust_permutation i j p
  ∧ adjust_permutation i i p = p.
Proof.
  split_and!; apply map_eq; intros k; rewrite ?adjust_permutation_lookup;
    destruct (p !! k) as [v|]; simpl; try done; f_equal.
  - apply transpose_involutive.
  - apply transpose_sym.
  - unfold transpose. by destruct (Z.eqb_spec v i).
Qed.

(** X8 — Rewriting a reference never disturbs the permutation's entries.
    [replace(VarAccess&)] keeps every entry the permutation has, writes
    nothing to the error stream, and for a register other than [q] returns
    [nullopt] with the state as it was. *)
Theorem replace_VarAccess_keeps_entries (va : VarAccess) (s : state) (k v : Z) :
  permutation_ s !! k = Some v →
  permutation_ (replace_VarAccess va s).2 !! k = Some v
  ∧ cerr (replace_VarAccess va s).2 = cerr s
  ∧ (var va ≠ register_name → replace_VarAccess va s = (None, s)).
Proof.
  intros Hk. unfold replace_VarAccess, perm_index, bind, get_perm, put_perm.
  destruct (String.eqb_spec (var va) register_name) as [E|E]; simpl.
  - destruct (permutation_ s !! offset va) as [w|] eqn:El; simpl.
    + done.
    + split_and!; [|done|done].
      rewrite lookup_insert_ne; [done|]. intros Heq. rewrite Heq in El.
      congruence.
  - done.
Qed.

Lemma replace_VarAccess_keeps_entries_witness :
  permutation_ (init line3) !! 1 = Some 1
  ∧ permutation_ (replace_VarAccess (q 7) (init line3)).2 !! 1 = Some 1
  ∧ replace_VarAccess (mkVarAccess "c" 7) (init line3) = (None, init line3).
Proof.
  split; [vm_compute; reflexivity|].
  split.
  - apply (replace_VarAccess_keeps_entries (q 7) (init line3) 1 1).
    vm_compute; reflexivity.
  - apply (replace_VarAccess_keeps_entries (mkVarAccess "c" 7) (init line3) 1 1);
      [vm_compute; reflexivity | discriminate].
Defined.

(** *** The unitary of the emitted gates *)

(** X9 — [generate_hadamard] is a Hadamard.  The gate [U(pi/2, 0, pi)] it
    builds has the Hadamard matrix, up to the unit factor of the phase
    convention of [U], and two of them on one qubit cancel up to that
    factor squared. *)
Theorem hadamard_gate_unitary (gphase : R → R → R → R) (i : Z) :
  let kappa := Cexp (gphase (PI / 2) 0 PI)%R in
  Cnorm2 kappa = 1%R
  ∧ gate_sem gphase (generate_hadamard i) = apply1 (hadamard kappa) i
  ∧ ∀ psi,
      gate_sem gphase (generate_hadamard i)
        (gate_sem gphase (generate_hadamard i) psi)
      = scale (Cmul kappa kappa) psi.
Proof.
  cbv zeta. split; [apply Cnorm2_exp|]. split; [apply gate_sem_hadamard|].
  intros psi. rewrite !gate_sem_hadamard. apply hadamard_twice.
Qed.

(** X10 — [generate_swapped_cnot(i, j)] is a CNOT from [i] to [j].  For
    distinct qubits the five gates have the unitary of [CNOT i j] up to a
    phase of modulus 1; so do the gates of the final step of
    [replace(CNOTGate&)], whatever the coupling direction. *)
Theorem swapped_cnot_unitary (gphase : R → R → R → R) (d : Device) (i j : Z) :
  i ≠ j →
  ∃ c, Cnorm2 c = 1%R
       ∧ (∀ psi, gates_sem gphase (generate_swapped_cnot i j) psi
                 = scale c (cnot i j psi))
       ∧ ∃ c', Cnorm2 c' = 1%R
               ∧ ∀ psi, gates_sem gphase (final_cnot d i j) psi
                        = scale c' (cnot i j psi).
Proof.
  intros Hij.
  exists (Cmul (Cmul (Cexp (gphase (PI / 2) 0 PI)%R) (Cexp (gphase (PI / 2) 0 PI)%R))
            (Cmul (Cexp (gphase (PI / 2) 0 PI)%R) (Cexp (gphase (PI / 2) 0 PI)%R))).
  split; [|split].
  - repeat apply unit_phase_mul; apply unit_phase_exp.
  - intros psi. by apply swapped_cnot_sem.
  - by apply final_cnot_sem.
Qed.

Lemma swapped_cnot_unitary_witness :
  1 ≠ 0
  ∧ ∃ c, Cnorm2 c = 1%R
         ∧ ∀ psi, gates_sem (λ _ _ _, 0%R) (generate_swapped_cnot 1 0) psi
                  = scale c (cnot 1 0 psi).
Proof.
  split; [lia|].
  destruct (swapped_cnot_unitary (λ _ _ _, 0%R) line3 1 0) as (c & Hc & Hs & _);
    [lia|].
  by exists c.
Defined.

(** X11 — The gates of "Swap i and j" are a SWAP.  For distinct slots and
    whatever the device couples, the emitted gates exchange the bits of [i]
    and [j] in every basis state, up to a phase of modulus 1. *)
Theorem swap_gates_unitary (gphase : R → R → R → R) (d : Device) (i j : Z) :
  i ≠ j →
  ∃ c, Cnorm2 c = 1%R
       ∧ ∀ psi x, gates_sem gphase (swap_gates d i j) psi x
                  = Cmul c (psi (λ k, x (if k =? i then j
                                         else if k =? j then i else k))).
Proof.
  intros Hij. destruct (swap_gates_sem gphase d i j Hij) as (c & Hc & Hs).
  exists c. split; [done|]. intros psi x. by rewrite Hs.
Qed.

Lemma swap_gates_unitary_witness :
  0 ≠ 1
  ∧ ∃ c, Cnorm2 c = 1%R
         ∧ ∀ psi x, gates_sem (λ _ _ _, 0%R) (swap_gates line3 0 1) psi x
                    = Cmul c (psi (λ k, x (if k =? 0 then 1
                                           else if k =? 1 then 0 else k))).
Proof.
  split; [lia|]. apply (swap_gates_unitary (λ _ _ _, 0%R) line3 0 1). lia.
Defined.

(** X6 — No swapping back.  After a [CX] has been mapped, the same [CX]
    visited again is replaced by the CNOT of the final step alone, from the
    slot the control was moved to, and the permutation stays as it is
    (when the device's path between adjacent slots is the target alone). *)
Theorem repeated_gate_needs_no_swap (d : Device) (c t vc vt : Z)
    (l1 l2 : list Z) (s : state) :
  permutation_ s !! c = Some vc →
  permutation_ s !! t = Some vt →
  vc ≠ vt →
  shortest_path d vc vt = l1 ++ vt :: l2 →
  vt ∉ l1 →
  shortest_path d (default vc (last l1)) vt = [vt] →
  let '(_, s1) := visit_Gate d (CNOTGate (q c) (q t)) s in
  visit_Gate d (CNOTGate (q c) (q t)) s1
  = (final_cnot d (default vc (last l1)) vt, s1).
Proof.
  intros Hc Ht Hne Hp Hl1 Hp2.
  unfold visit_Gate at 1. unfold bind.
  rewrite (visit_VarAccess_q c s vc Hc), (visit_VarAccess_q t s vt Ht).
  rewrite replace_CNOTGate_path by (simpl; rewrite Hp; by destruct l1).
  simpl offset. rewrite Hp.
  destruct (swap_chain d vt vc (l1 ++ vt :: l2) s) as [gs s1] eqn:E.
  apply swap_chain_track in E as (_ & Ht1 & Hc1 & _); [|done|done].
  unfold ret. unfold visit_Gate, bind.
  rewrite (visit_VarAccess_q c s1 _ (Hc1 c Hc)), (visit_VarAccess_q t s1 _ (Ht1 t Ht)).
  unfold replace_CNOTGate. cbv zeta. unfold q. cbn [offset]. rewrite Hp2.
  unfold bind, ret. cbn [swap_chain]. by rewrite Z.eqb_refl.
Qed.

Lemma repeated_gate_needs_no_swap_witness :
  let '(_, s1) := visit_Gate line3 (CNOTGate (q 0) (q 2)) (init line3) in
  visit_Gate line3 (CNOTGate (q 0) (q 2)) s1 = ([generate_cnot 1 2], s1).
Proof.
  pose proof (repeated_gate_needs_no_swap line3 0 2 0 2 [1] [] (init line3)) as H.
  destruct (visit_Gate line3 (CNOTGate (q 0) (q 2)) (init line3)) as [gs s1].
  rewrite H; [reflexivity| | | | | |]; try (vm_compute; reflexivity).
  - lia.
  - intros Hin. apply list_elem_of_singleton in Hin. lia.
Defined.

(** *** The wrapper's device *)

Section Matrix.
Context {A : Type}.
Implicit Types (m : list (list A)) (x : A).

Lemma set2_length m i j x : length (pystaq.set2 m i j x) = length m.
Proof.
  unfold pystaq.set2. destruct (m !! Z.to_nat i); [|done]. apply length_insert.
Qed.

Lemma set2_rows (P : list A → Prop) m i j x :
  (∀ row, P row → P (<[Z.to_nat j := x]> row)) →
  Forall P m → Forall P (pystaq.set2 m i j x).
Proof.
  intros HP Hm. unfold pystaq.set2.
  destruct (m !! Z.to_nat i) as [row|] eqn:E; [|done].
  apply Forall_insert; [done|]. apply HP.
  eapply Forall_lookup_1; eauto.
Qed.

Lemma at2_set2_eq m i j x :
  is_Some (pystaq.at2 m i j) → pystaq.at2 (pystaq.set2 m i j x) i j = Some x.
Proof.
  unfold pystaq.at2, pystaq.set2. intros [y Hy].
  destruct ((0 <=? i) && (0 <=? j)); [|done].
  destruct (m !! Z.to_nat i) as [row|] eqn:E; [|done].
  rewrite list_lookup_insert_eq by (by eapply lookup_lt_Some).
  apply list_lookup_insert_eq. by eapply lookup_lt_Some.
Qed.

Lemma at2_set2_ne m i j x i' j' :
  0 ≤ i → 0 ≤ j → (i', j') ≠ (i, j) →
  pystaq.at2 (pystaq.set2 m i j x) i' j' = pystaq.at2 m i' j'.
Proof.
  unfold pystaq.at2, pystaq.set2. intros Hi Hj Hne.
  destruct ((0 <=? i') && (0 <=? j')) eqn:Hg; [|done].
  apply andb_true_iff in Hg as [Hi' Hj']. apply Z.leb_le in Hi', Hj'.
  destruct (m !! Z.to_nat i) as [row|] eqn:E; [|done].
  destruct (decide (Z.to_nat i' = Z.to_nat i)) as [Ei|Ei].
  - rewrite Ei, list_lookup_insert_eq by (by eapply lookup_lt_Some).
    rewrite E. apply list_lookup_insert_ne.
    intros Ej. apply Hne. f_equal; lia.
  - by rewrite list_lookup_insert_ne.
Qed.

Lemma set2_id m i j x :
  0 ≤ i → 0 ≤ j → pystaq.at2 m i j = Some x → pystaq.set2 m i j x = m.
Proof.
  unfold pystaq.at2, pystaq.set2. intros Hi Hj.
  apply Z.leb_le in Hi, Hj. rewrite Hi, Hj. simpl.
  destruct (m !! Z.to_nat i) as [row|] eqn:E; [|done].
  intros Hx. rewrite (list_insert_id row) by done. by apply list_insert_id.
Qed.

Lemma at2_set2_true (m : list (list bool)) i j i' j' :
  pystaq.at2 m i' j' = Some true →
  pystaq.at2 (pystaq.set2 m i j true) i' j' = Some true.
Proof.
  unfold pystaq.at2, pystaq.set2.
  destruct ((0 <=? i') && (0 <=? j')); [|done].
  destruct (m !! Z.to_nat i) as [row|] eqn:E; [|done].
  destruct (decide (Z.to_nat i' = Z.to_nat i)) as [Ei|Ei].
  - rewrite Ei, E. intros Hr.
    rewrite list_lookup_insert_eq by (by eapply lookup_lt_Some).
    destruct (decide (Z.to_nat j' = Z.to_nat j)) as [Ej|Ej].
    + rewrite Ej. apply list_lookup_insert_eq. rewrite <- Ej.
      by eapply lookup_lt_Some.
    + by rewrite list_lookup_insert_ne.
  - by rewrite list_lookup_insert_ne.
Qed.

End Matrix.

Lemma well_shaped_spec d :
  pystaq.well_shaped d = true
  ↔ 0 < pystaq.n_ d
    ∧ Z.of_nat (length (pystaq.sq_fi_ d)) = pystaq.n_ d
    ∧ square (pystaq.n_ d) (pystaq.adj_ d)
    ∧ square (pystaq.n_ d) (pystaq.tq_fi_ d).
Proof.
  unfold pystaq.well_shaped, square.
  rewrite !andb_true_iff, Z.ltb_lt, !Z.eqb_eq, !forallb_forall, !Forall_forall.
  setoid_rewrite Z.eqb_eq. setoid_rewrite <- list_elem_of_In. tauto.
Qed.

Lemma square_set2 {A} n (m : list (list A)) i j x :
  square n m → square n (pystaq.set2 m i j x).
Proof.
  intros [Hl Hr]. split; [by rewrite set2_length|].
  apply set2_rows; [|done]. intros row. by rewrite length_insert.
Qed.

Lemma square_at2 {A} n (m : list (list A)) i j :
  square n m → 0 ≤ i < n → 0 ≤ j < n → is_Some (pystaq.at2 m i j).
Proof.
  intros [Hl Hr] Hi Hj. unfold pystaq.at2.
  destruct (Z.leb_spec 0 i); [|lia]. destruct (Z.leb_spec 0 j); [|lia]. simpl.
  destruct (lookup_lt_is_Some_2 m (Z.to_nat i)) as [row Hrow]; [lia|].
  rewrite Hrow. apply lookup_lt_is_Some_2.
  rewrite Forall_forall in Hr. specialize (Hr row).
  assert (row ∈ m) as Hin by (by eapply list_elem_of_lookup_2).
  apply Hr in Hin. lia.
Qed.

Lemma index_in_range d c t :
  index_out_of_range d c t = false
  ↔ 0 ≤ c < pystaq.n_ d ∧ 0 ≤ t < pystaq.n_ d.
Proof.
  unfold index_out_of_range. rewrite !orb_false_iff, !Z.ltb_ge, !Z.geb_leb.
  rewrite !Z.leb_gt. lia.
Qed.

(** X12 — The wrapper's constructor.  [Device(n)] throws exactly when
    [n <= 0]; otherwise the device has [n] qubits, is well shaped, has no
    coupling at all and every fidelity equal to [FIDELITY_1]. *)
Theorem new_device (FIDELITY_1 : float) (n : Z) :
  (pystaq.new FIDELITY_1 n = None ↔ n ≤ 0)
  ∧ ∀ d, pystaq.new FIDELITY_1 n = Some d →
      pystaq.n_ d = n
      ∧ pystaq.well_shaped d = true
      ∧ ∀ i j, 0 ≤ i < n → 0 ≤ j < n →
          pystaq.at2 (pystaq.adj_ d) i j = Some false
          ∧ pystaq.at2 (pystaq.tq_fi_ d) i j = Some FIDELITY_1
          ∧ pystaq.sq_fi_ d !! Z.to_nat i = Some FIDELITY_1.
Proof.
  unfold pystaq.new. destruct (Z.leb_spec n 0) as [Hn|Hn].
  - split; [split; [lia|done]|done].
  - split; [split; [done|lia]|]. intros d [= <-]. simpl.
    split; [done|]. split.
    + apply well_shaped_spec. simpl. unfold square.
      rewrite !length_replicate. split_and!; try lia.
      * apply Forall_replicate. rewrite length_replicate. lia.
      * apply Forall_replicate. rewrite length_replicate. lia.
    + intros i j Hi Hj. unfold pystaq.at2.
      destruct (Z.leb_spec 0 i); [|lia]. destruct (Z.leb_spec 0 j); [|lia]. simpl.
      rewrite !lookup_replicate_2 by lia. done.
Qed.

Lemma new_device_witness :
  pystaq.new fidelity_099 0 = None
  ∧ ∃ d, pystaq.new fidelity_099 2 = Some d
         ∧ pystaq.n_ d = 2
         ∧ pystaq.at2 (pystaq.adj_ d) 0 1 = Some false
         ∧ pystaq.at2 (pystaq.tq_fi_ d) 1 0 = Some fidelity_099.
Proof.
  split.
  - apply (new_device fidelity_099 0). lia.
  - eexists. split; [reflexivity|].
    pose proof (new_device fidelity_099 2) as [_ H].
    destruct (H _ eq_refl) as (Hn & _ & He).
    destruct (He 0 1 ltac:(lia) ltac:(lia)) as (Ha & _ & _).
    destruct (He 1 0 ltac:(lia) ltac:(lia)) as (_ & Hq & _).
    split; [exact Hn|]. split; [exact Ha|exact Hq].
Defined.

(** X13 — [add_edge] keeps the shape of the device: [n_], the length of
    [sq_fi_] and the [n_] by [n_] shape of [adj_] and [tq_fi_], and it never
    touches [n_] or [sq_fi_]. *)
Theorem add_edge_keeps_shape (FIDELITY_1 : float) (control target : Z)
    (directed : bool) (fidelity : float) (d : pystaq.Device) (cerr : list Out) :
  pystaq.well_shaped d = true →
  pystaq.well_shaped
    (pystaq.add_edge FIDELITY_1 control target directed fidelity (d, cerr)).1
  = true
  ∧ pystaq.n_
      (pystaq.add_edge FIDELITY_1 control target directed fidelity (d, cerr)).1
    = pystaq.n_ d
  ∧ pystaq.sq_fi_
      (pystaq.add_edge FIDELITY_1 control target directed fidelity (d, cerr)).1
    = pystaq.sq_fi_ d.
Proof.
  intros Hs. unfold pystaq.add_edge.
  destruct (_ || _ || _ || _); [done|].
  apply well_shaped_spec in Hs as (Hn & Hsq & Ha & Ht).
  assert (Ha' : square (pystaq.n_ d)
                  (if negb directed
                   then pystaq.set2 (pystaq.set2 (pystaq.adj_ d) control target true)
                          target control true
                   else pystaq.set2 (pystaq.adj_ d) control target true)).
  { destruct directed; simpl; repeat apply square_set2; done. }
  assert (Ht' : square (pystaq.n_ d)
                  (if negb directed
                   then pystaq.set2
                          (pystaq.set2 (pystaq.tq_fi_ d) control target fidelity)
                          target control fidelity
                   else pystaq.set2 (pystaq.tq_fi_ d) control target fidelity)).
  { destruct directed; simpl; repeat apply square_set2; done. }
  destruct (negb (PrimFloat.eqb fidelity FIDELITY_1));
    [destruct (_ || _)|]; simpl; (split; [|done]);
    apply well_shaped_spec; simpl; done.
Qed.

Lemma add_edge_keeps_shape_witness :
  pystaq.well_shaped two_qubits = true
  ∧ pystaq.well_shaped
      (pystaq.add_edge fidelity_099 0 1 true 0.5 (two_qubits, [])).1 = true.
Proof.
  split; [vm_compute; reflexivity|].
  apply (add_edge_keeps_shape fidelity_099 0 1 true 0.5 two_qubits []).
  vm_compute; reflexivity.
Defined.

(** X14 — [add_edge] with indices inside the device sets
    [adj_[control][target]], also [adj_[target][control]] unless [directed],
    and no other entry; this holds whatever the fidelity, and for
    [control = target] as well. *)
Theorem add_edge_adds_edge (FIDELITY_1 : float) (control target : Z)
    (directed : bool) (fidelity : float) (d : pystaq.Device) (cerr : list Out) :
  pystaq.well_shaped d = true →
  index_out_of_range d control target = false →
  let adj' :=
    pystaq.adj_
      (pystaq.add_edge FIDELITY_1 control target directed fidelity (d, cerr)).1 in
  pystaq.at2 adj' control target = Some true
  ∧ (directed = false → pystaq.at2 adj' target control = Some true)
  ∧ ∀ i j, (i, j) ≠ (control, target) →
           (directed = true ∨ (i, j) ≠ (target, control)) →
           pystaq.at2 adj' i j = pystaq.at2 (pystaq.adj_ d) i j.
Proof.
  intros Hs Hi. cbv zeta. unfold pystaq.add_edge.
  unfold index_out_of_range in Hi. rewrite Hi.
  apply index_in_range in Hi as [Hc Ht].
  apply well_shaped_spec in Hs as (_ & _ & Ha & _).
  pose proof (square_at2 _ _ control target Ha Hc Ht) as Hct.
  pose proof (square_at2 _ _ target control Ha Ht Hc) as Htc.
  assert (HP : ∀ adj',
    adj' = (if negb directed
            then pystaq.set2 (pystaq.set2 (pystaq.adj_ d) control target true)
                   target control true
            else pystaq.set2 (pystaq.adj_ d) control target true) →
    pystaq.at2 adj' control target = Some true
    ∧ (directed = false → pystaq.at2 adj' target control = Some true)
    ∧ ∀ i j, (i, j) ≠ (control, target) →
             (directed = true ∨ (i, j) ≠ (target, control)) →
             pystaq.at2 adj' i j = pystaq.at2 (pystaq.adj_ d) i j).
  { intros adj' ->. destruct directed; simpl.
    - split; [by apply at2_set2_eq|]. split; [done|].
      intros i j Hne _. apply at2_set2_ne; [lia|lia|done].
    - split; [|split].
      + apply at2_set2_true. by apply at2_set2_eq.
      + intros _. apply at2_set2_eq.
        destruct (decide ((target, control) = (control, target))) as [[= -> _]|Hne].
        * rewrite at2_set2_eq; eauto.
        * rewrite at2_set2_ne; [done|lia|lia|done].
      + intros i j Hne [?|Hne']; [done|].
        rewrite at2_set2_ne; [|lia|lia|done]. apply at2_set2_ne; [lia|lia|done]. }
  destruct (negb (PrimFloat.eqb fidelity FIDELITY_1)); [destruct (_ || _)|];
    by apply HP.
Qed.

Lemma add_edge_adds_edge_witness :
  pystaq.well_shaped two_qubits = true
  ∧ index_out_of_range two_qubits 0 1 = false
  ∧ pystaq.adj_ (pystaq.add_edge fidelity_099 0 1 true 0.5 (two_qubits, [])).1
    = [[false; true]; [false; false]].
Proof.
  split; [vm_compute; reflexivity|]. split; [vm_compute; reflexivity|].
  destruct (add_edge_adds_edge fidelity_099 0 1 true 0.5 two_qubits [])
    as (H01 & _ & _); [vm_compute; reflexivity | vm_compute; reflexivity |].
  vm_compute. reflexivity.
Defined.

(** X15 — [add_edge] never removes a coupling: an entry of [adj_] that is
    true is true after any call. *)
Theorem add_edge_never_removes (FIDELITY_1 : float) (control target : Z)
    (directed : bool) (fidelity : float) (d : pystaq.Device) (cerr : list Out)
    (i j : Z) :
  pystaq.at2 (pystaq.adj_ d) i j = Some true →
  pystaq.at2
    (pystaq.adj_
       (pystaq.add_edge FIDELITY_1 control target directed fidelity (d, cerr)).1)
    i j = Some true.
Proof.
  intros H. unfold pystaq.add_edge.
  destruct (_ || _ || _ || _); [done|].
  assert (H' : pystaq.at2
                 (if negb directed
                  then pystaq.set2 (pystaq.set2 (pystaq.adj_ d) control target true)
                         target control true
                  else pystaq.set2 (pystaq.adj_ d) control target true) i j
               = Some true).
  { destruct directed; simpl; repeat apply at2_set2_true; done. }
  destruct (negb (PrimFloat.eqb fidelity FIDELITY_1)); [destruct (_ || _)|];
    exact H'.
Qed.

Lemma add_edge_never_removes_witness :
  let d1 := (pystaq.add_edge fidelity_099 0 1 false 0.5 (two_qubits, [])).1 in
  pystaq.at2 (pystaq.adj_ d1) 1 0 = Some true
  ∧ pystaq.at2
      (pystaq.adj_ (pystaq.add_edge fidelity_099 0 1 true 0.5 (d1, [])).1) 1 0
    = Some true.
Proof.
  cbv zeta. split; [vm_compute; reflexivity|].
  apply (add_edge_never_removes fidelity_099 0 1 true 0.5). vm_compute; reflexivity.
Defined.

(** X16 — [add_edge] with indices inside the device and a fidelity that
    differs from [FIDELITY_1] and passes the range test stores the fidelity
    at [tq_fi_[control][target]], also at [tq_fi_[target][control]] unless
    [directed], changes no other fidelity and writes nothing. *)
Theorem add_edge_sets_fidelity (FIDELITY_1 : float) (control target : Z)
    (directed : bool) (fidelity : float) (d : pystaq.Device) (cerr : list Out) :
  pystaq.well_shaped d = true →
  index_out_of_range d control target = false →
  PrimFloat.eqb fidelity FIDELITY_1 = false →
  fidelity_out_of_range fidelity = false →
  let '(d', cerr') :=
    pystaq.add_edge FIDELITY_1 control target directed fidelity (d, cerr) in
  cerr' = cerr
  ∧ pystaq.at2 (pystaq.tq_fi_ d') control target = Some fidelity
  ∧ (directed = false → pystaq.at2 (pystaq.tq_fi_ d') target control = Some fidelity)
  ∧ ∀ i j, (i, j) ≠ (control, target) →
           (directed = true ∨ (i, j) ≠ (target, control)) →
           pystaq.at2 (pystaq.tq_fi_ d') i j = pystaq.at2 (pystaq.tq_fi_ d) i j.
Proof.
  intros Hs Hi He Hf. unfold pystaq.add_edge.
  unfold index_out_of_range in Hi. rewrite Hi. rewrite He.
  unfold fidelity_out_of_range in Hf. rewrite Hf. cbn [negb].
  apply index_in_range in Hi as [Hc Ht].
  apply well_shaped_spec in Hs as (_ & _ & _ & Hq).
  pose proof (square_at2 _ _ control target Hq Hc Ht) as Hct.
  pose proof (square_at2 _ _ target control Hq Ht Hc) as Htc.
  split; [done|]. simpl. destruct directed; simpl.
  - split; [by apply at2_set2_eq|]. split; [done|].
    intros i j Hne _. apply at2_set2_ne; [lia|lia|done].
  - split; [|split].
    + destruct (decide ((control, target) = (target, control))) as [[= -> _]|Hne].
      * apply at2_set2_eq. rewrite at2_set2_eq; eauto.
      * rewrite at2_set2_ne; [|lia|lia|done]. by apply at2_set2_eq.
    + intros _. apply at2_set2_eq.
      destruct (decide ((target, control) = (control, target))) as [[= -> _]|Hne].
      * rewrite at2_set2_eq; eauto.
      * rewrite at2_set2_ne; [done|lia|lia|done].
    + intros i j Hne [?|Hne']; [done|].
      rewrite at2_set2_ne; [|lia|lia|done]. apply at2_set2_ne; [lia|lia|done].
Qed.

Lemma add_edge_sets_fidelity_witness :
  pystaq.well_shaped two_qubits = true
  ∧ index_out_of_range two_qubits 0 1 = false
  ∧ PrimFloat.eqb 0.5 fidelity_099 = false
  ∧ fidelity_out_of_range 0.5 = false
  ∧ pystaq.at2
      (pystaq.tq_fi_ (pystaq.add_edge fidelity_099 0 1 false 0.5 (two_qubits, [])).1)
      1 0 = Some 0.5%float.
Proof.
  split; [vm_compute; reflexivity|]. split; [vm_compute; reflexivity|].
  split; [vm_compute; reflexivity|]. split; [vm_compute; reflexivity|].
  pose proof (add_edge_sets_fidelity fidelity_099 0 1 false 0.5 two_qubits []) as H.
  destruct (pystaq.add_edge fidelity_099 0 1 false 0.5 (two_qubits, [])) as [d' c'].
  destruct H as (_ & _ & H & _); try (vm_compute; reflexivity).
  by apply H.
Defined.

(** X17 — [add_edge] with the fidelity [FIDELITY_1] never writes to
    [tq_fi_]: adding an edge again with the default fidelity does not reset
    a fidelity stored before. *)
Theorem add_edge_default_keeps_fidelity (FIDELITY_1 : float) (control target : Z)
    (directed : bool) (d : pystaq.Device) (cerr : list Out) :
  PrimFloat.eqb FIDELITY_1 FIDELITY_1 = true →
  pystaq.tq_fi_
    (pystaq.add_edge FIDELITY_1 control target directed FIDELITY_1 (d, cerr)).1
  = pystaq.tq_fi_ d.
Proof.
  intros He. unfold pystaq.add_edge.
  destruct (_ || _ || _ || _); [done|]. by rewrite He.
Qed.

Lemma add_edge_default_keeps_fidelity_witness :
  let d1 := (pystaq.add_edge fidelity_099 0 1 false 0.5 (two_qubits, [])).1 in
  PrimFloat.eqb fidelity_099 fidelity_099 = true
  ∧ pystaq.at2
      (pystaq.tq_fi_ (pystaq.add_edge fidelity_099 0 1 false fidelity_099 (d1, [])).1)
      0 1 = Some 0.5%float.
Proof.
  cbv zeta. split; [vm_compute; reflexivity|].
  rewrite (add_edge_default_keeps_fidelity fidelity_099 0 1 false)
    by (vm_compute; reflexivity).
  vm_compute. reflexivity.
Defined.

(** X18 — [set_fidelity].  A qubit outside the device or a fidelity that
    fails the range test is reported and the device is unchanged;
    otherwise [sq_fi_[qubit]] becomes the fidelity and nothing is written.
    In every case [adj_], [tq_fi_], [n_] and the other entries of [sq_fi_]
    are kept, and the device stays well shaped. *)
Theorem set_fidelity_spec (qubit : Z) (fidelity : float) (d : pystaq.Device)
    (cerr : list Out) :
  pystaq.well_shaped d = true →
  let '(d', cerr') := pystaq.set_fidelity qubit fidelity (d, cerr) in
  pystaq.n_ d' = pystaq.n_ d
  ∧ pystaq.adj_ d' = pystaq.adj_ d
  ∧ pystaq.tq_fi_ d' = pystaq.tq_fi_ d
  ∧ pystaq.well_shaped d' = true
  ∧ (∀ k, k ≠ Z.to_nat qubit → pystaq.sq_fi_ d' !! k = pystaq.sq_fi_ d !! k)
  ∧ if (qubit <? 0) || (qubit >=? pystaq.n_ d) then
      d' = d ∧ cerr' = cerr ++ [OStr "Qubit out of range: "; OInt qubit]
    else if fidelity_out_of_range fidelity then
      d' = d ∧ cerr' = cerr ++ [OStr "Fidelity out of range: "; ODouble fidelity]
    else
      pystaq.sq_fi_ d' !! Z.to_nat qubit = Some fidelity ∧ cerr' = cerr.
Proof.
  intros Hs. unfold pystaq.set_fidelity, fidelity_out_of_range.
  destruct ((qubit <? 0) || (qubit >=? pystaq.n_ d)) eqn:Eq; [done|].
  destruct (PrimFloat.ltb fidelity 0 || PrimFloat.ltb 1 fidelity); [done|].
  simpl. apply orb_false_iff in Eq as [Hq0 Hqn].
  apply Z.ltb_ge in Hq0. rewrite Z.geb_leb in Hqn. apply Z.leb_gt in Hqn.
  pose proof Hs as Hs'.
  apply well_shaped_spec in Hs' as (Hn & Hsq & Ha & Ht).
  split_and!; try done.
  - apply well_shaped_spec. simpl. by rewrite length_insert.
  - intros k Hk. by apply list_lookup_insert_ne.
  - apply list_lookup_insert_eq. lia.
Qed.

Lemma set_fidelity_spec_witness :
  pystaq.well_shaped two_qubits = true
  ∧ pystaq.sq_fi_ (pystaq.set_fidelity 1 0.5 (two_qubits, [])).1
    = [fidelity_099; 0.5%float].
Proof.
  split; [vm_compute; reflexivity|].
  pose proof (set_fidelity_spec 1 0.5 two_qubits []) as H.
  destruct (pystaq.set_fidelity 1 0.5 (two_qubits, [])) as [d' c'] eqn:E.
  destruct H as (_ & _ & _ & _ & _ & _); [vm_compute; reflexivity|].
  vm_compute in E. by injection E as <- <-.
Defined.

(** X19 — [add_edge] is idempotent on the device: the same call made
    twice leaves the device the first call left. *)
Theorem add_edge_idempotent (FIDELITY_1 : float) (control target : Z)
    (directed : bool) (fidelity : float) (d : pystaq.Device)
    (cerr cerr' : list Out) :
  pystaq.well_shaped d = true →
  (pystaq.add_edge FIDELITY_1 control target directed fidelity
     ((pystaq.add_edge FIDELITY_1 control target directed fidelity (d, cerr)).1,
      cerr')).1
  = (pystaq.add_edge FIDELITY_1 control target directed fidelity (d, cerr)).1.
Proof.
  intros Hs.
  destruct (index_out_of_range d control target) eqn:Hi.
  { unfold pystaq.add_edge. unfold index_out_of_range in Hi. rewrite Hi. simpl.
    by rewrite Hi. }
  pose proof (index_in_range d control target) as [Hr _].
  destruct (Hr Hi) as [Hc Ht].
  (* the adjacency after the first call holds the edge *)
  assert (Hadj_id : ∀ adj : list (list bool),
    square (pystaq.n_ d) adj →
    let adj1 := if negb directed
                then pystaq.set2 (pystaq.set2 adj control target true)
                       target control true
                else pystaq.set2 adj control target true in
    (if negb directed
     then pystaq.set2 (pystaq.set2 adj1 control target true) target control true
     else pystaq.set2 adj1 control target true) = adj1).
  { intros adj Ha. cbv zeta.
    pose proof (square_at2 _ _ control target Ha Hc Ht) as Hct.
    pose proof (square_at2 _ _ target control Ha Ht Hc) as Htc.
    destruct directed; simpl.
    - apply set2_id; [lia|lia|]. by apply at2_set2_eq.
    - rewrite (set2_id (pystaq.set2 _ target control true) control target);
        [|lia|lia|by apply at2_set2_true, at2_set2_eq].
      apply set2_id; [lia|lia|]. apply at2_set2_eq.
      destruct (decide ((target, control) = (control, target))) as [[= -> _]|Hne].
      + rewrite at2_set2_eq; eauto.
      + rewrite at2_set2_ne; [done|lia|lia|done]. }
  assert (Htq_id : ∀ tq : list (list float),
    square (pystaq.n_ d) tq →
    let tq1 := if negb directed
               then pystaq.set2 (pystaq.set2 tq control target fidelity)
                      target control fidelity
               else pystaq.set2 tq control target fidelity in
    (if negb directed
     then pystaq.set2 (pystaq.set2 tq1 control target fidelity)
            target control fidelity
     else pystaq.set2 tq1 control target fidelity) = tq1).
  { intros tq Hq. cbv zeta.
    pose proof (square_at2 _ _ control target Hq Hc Ht) as Hct.
    pose proof (square_at2 _ _ target control Hq Ht Hc) as Htc.
    destruct directed; simpl.
    - apply set2_id; [lia|lia|]. by apply at2_set2_eq.
    - assert (H1 : pystaq.at2
                     (pystaq.set2 (pystaq.set2 tq control target fidelity)
                        target control fidelity) control target = Some fidelity).
      { destruct (decide ((control, target) = (target, control))) as [[= -> _]|Hne].
        - apply at2_set2_eq. rewrite at2_set2_eq; eauto.
        - rewrite at2_set2_ne; [|lia|lia|done]. by apply at2_set2_eq. }
      rewrite (set2_id (pystaq.set2 _ target control fidelity) control target);
        [|lia|lia|done].
      apply set2_id; [lia|lia|]. apply at2_set2_eq.
      destruct (decide ((target, control) = (control, target))) as [[= -> _]|Hne].
      + rewrite at2_set2_eq; eauto.
      + rewrite at2_set2_ne; [done|lia|lia|done]. }
  apply well_shaped_spec in Hs as (_ & _ & Ha & Hq).
  specialize (Hadj_id _ Ha). specialize (Htq_id _ Hq). cbv zeta in Hadj_id, Htq_id.
  unfold pystaq.add_edge. unfold index_out_of_range in Hi. rewrite Hi.
  destruct (negb (PrimFloat.eqb fidelity FIDELITY_1)) eqn:He;
    [destruct (PrimFloat.ltb fidelity 0 || PrimFloat.ltb 1 fidelity) eqn:Hf|];
    simpl; rewrite Hi, ?He, ?Hf; simpl; f_equal; done.
Qed.

Lemma add_edge_idempotent_witness :
  pystaq.well_shaped two_qubits = true
  ∧ (pystaq.add_edge fidelity_099 0 1 false 0.5
       ((pystaq.add_edge fidelity_099 0 1 false 0.5 (two_qubits, [])).1, [])).1
    = (pystaq.add_edge fidelity_099 0 1 false 0.5 (two_qubits, [])).1.
Proof.
  split; [vm_compute; reflexivity|].
  apply (add_edge_idempotent fidelity_099 0 1 false 0.5 two_qubits [] []).
  vm_compute; reflexivity.
Defined.


